(** * mystlang: cross-reference indexing for MyST markdown

  A shallow embedding of [src/extension.ts].  JavaScript strings are
  sequences of UTF-16 code units, objects used as dictionaries are finite
  maps together with what they inherit from [Object.prototype], promises
  that may reject are outcomes that either return or throw, and the host
  (file system, document provider, completion order of concurrent tasks)
  is an explicit [World]; the document methods that the definition and
  reference providers call belong to an [Editor]. *)

From Stdlib Require Import String Ascii NArith ZArith Lia.
From stdpp Require Import base list gmap fin_maps sorting.
From Equations Require Import Equations.

Local Open Scope N_scope.

(** ** JavaScript strings *)

Module JSString.

(** A string is its sequence of UTF-16 code units. *)
Abbreviation jsstring := (list N).

(** String literals of the source, which are all ASCII. *)
Definition js (s : string) : jsstring :=
  map N_of_ascii (list_ascii_of_string s).

(** [s.startsWith(p)] *)
Fixpoint startsWith (s p : jsstring) {struct p} : bool :=
  match p, s with
  | [], _ => true
  | _ :: _, [] => false
  | c :: p', d :: s' => (c =? d) && startsWith s' p'
  end.

(** [s.endsWith(p)] *)
Definition endsWith (s p : jsstring) : bool :=
  startsWith (rev s) (rev p).

(** Clamping of an index argument to [0 .. len]. *)
Definition clamp (len : nat) (i : Z) : nat :=
  Nat.min (Z.to_nat i) len.

(** [s.substring(start, end)]: both indices are clamped to the string and
    swapped when [start > end]. *)
Definition substring2 (s : jsstring) (start end_ : Z) : jsstring :=
  let a := clamp (length s) start in
  let b := clamp (length s) end_ in
  let lo := Nat.min a b in
  let hi := Nat.max a b in
  take (hi - lo) (drop lo s).

(** [s.substring(start)]: the end defaults to the length. *)
Definition substring1 (s : jsstring) (start : Z) : jsstring :=
  substring2 s start (Z.of_nat (length s)).

(** [s.slice(lo, hi)] for indices already in range. *)
Definition slice (s : jsstring) (lo hi : nat) : jsstring :=
  take (hi - lo) (drop lo s).

End JSString.
Import JSString.

(** ** Regular expressions

  The fragment of ECMAScript regular expressions used by the extension:
  [^], literal text, a greedy repetition of one character class, sequence,
  alternation and numbered capture groups, matched by backtracking. *)

Module RegExp.

Inductive Regex : Type :=
| Bol                                         (* ^ (no m flag) *)
| Lit (l : jsstring)                          (* literal characters *)
| Rep (cls : N -> bool) (min : nat)           (* cls{min,}, greedy *)
| Seq (r1 r2 : Regex)
| Alt (r1 r2 : Regex)
| Group (idx : nat) (r : Regex).              (* ( r ) *)

Definition Star (cls : N -> bool) : Regex := Rep cls 0.
Definition Plus (cls : N -> bool) : Regex := Rep cls 1.

(** Spans of the capture groups that have matched so far, most recent
    first. *)
Definition Captures := list (nat * (nat * nat)).

Fixpoint capture (caps : Captures) (idx : nat) : option (nat * nat) :=
  match caps with
  | [] => None
  | (i, span) :: rest => if Nat.eqb i idx then Some span else capture rest idx
  end.

(** A successful match: [match.index], the end of the match and the spans
    of [match.indices]. *)
Record Match : Type := mkMatch {
  m_start : nat;
  m_end : nat;
  m_caps : Captures
}.

(** Length of the longest prefix of [s] inside the class. *)
Fixpoint run (cls : N -> bool) (s : jsstring) : nat :=
  match s with
  | c :: s' => if cls c then S (run cls s') else 0%nat
  | [] => 0%nat
  end.

(** Greedy repetition: try the continuation after [n] repetitions, then
    after [n-1], ... down to [min]. *)
Fixpoint backoff {A} (k : nat -> option A) (i min n : nat) : option A :=
  if Nat.ltb n min then None
  else match k (i + n)%nat with
       | Some r => Some r
       | None => match n with
                 | O => None
                 | S n' => backoff k i min n'
                 end
       end.

(** The backtracking matcher, in continuation-passing style: match [r] at
    position [i] of [text], then hand the end position and the captures
    to [k]; when [k] fails, the next alternative of [r] is tried. *)
Fixpoint rmatch {A} (r : Regex) (text : jsstring) (i : nat) (caps : Captures)
    (k : nat -> Captures -> option A) : option A :=
  match r with
  | Bol => if Nat.eqb i 0 then k i caps else None
  | Lit l =>
      if startsWith (drop i text) l then k (i + length l)%nat caps else None
  | Rep cls min =>
      backoff (fun j => k j caps) i min (run cls (drop i text))
  | Seq r1 r2 =>
      rmatch r1 text i caps (fun j caps' => rmatch r2 text j caps' k)
  | Alt r1 r2 =>
      match rmatch r1 text i caps k with
      | Some m => Some m
      | None => rmatch r2 text i caps k
      end
  | Group idx r1 =>
      rmatch r1 text i caps (fun j caps' => k j ((idx, (i, j)) :: caps'))
  end.

Definition matchAt (r : Regex) (text : jsstring) (i : nat) : option Match :=
  rmatch r text i [] (fun j caps => Some (mkMatch i j caps)).

(** Leftmost match starting at [start] or later ([fuel] bounds the start
    positions still to try). *)
Fixpoint search (fuel : nat) (r : Regex) (text : jsstring) (start : nat)
    : option Match :=
  match matchAt r text start with
  | Some m => Some m
  | None => match fuel with
            | O => None
            | S fuel' => search fuel' r text (S start)
            end
  end.

(** [RegExpBuiltinExec] with the [g] flag set and [lastIndex] given. *)
Definition exec (r : Regex) (text : jsstring) (lastIndex : nat) : option Match :=
  if Nat.ltb (length text) lastIndex then None
  else search (length text - lastIndex) r text lastIndex.

(** Where the iteration of [matchAll] resumes after a match: at its end,
    one further when the match was empty. *)
Definition resumeAt (m : Match) : nat :=
  if Nat.eqb (m_end m) (m_start m) then S (m_end m) else m_end m.

(** The iterator of [text.matchAll(r)]. *)
Fixpoint matchAllFrom (fuel : nat) (r : Regex) (text : jsstring)
    (lastIndex : nat) : list Match :=
  match fuel with
  | O => []
  | S fuel' =>
      match exec r text lastIndex with
      | None => []
      | Some m => m :: matchAllFrom fuel' r text (resumeAt m)
      end
  end.

Definition matchAll (r : Regex) (text : jsstring) : list Match :=
  matchAllFrom (S (length text)) r text 0.

(** Character classes. *)
Definition between (lo hi c : N) : bool := (lo <=? c) && (c <=? hi).

(** [\w] without the [i] and [u] flags: [A-Za-z0-9_]. *)
Definition isWord (c : N) : bool :=
  between 65 90 c || between 97 122 c || between 48 57 c || (c =? 95).

(** [\s]: white space and line terminators. *)
Definition isSpace (c : N) : bool :=
  between 9 13 c || (c =? 32) || (c =? 160) || (c =? 5760)
  || between 8192 8202 c || (c =? 8232) || (c =? 8233) || (c =? 8239)
  || (c =? 8287) || (c =? 12288) || (c =? 65279).

Definition oneOf (l : jsstring) (c : N) : bool :=
  existsb (N.eqb c) l.

End RegExp.
Import RegExp.

(** ** Outcomes of calls that may throw (or of promises that may reject) *)

Inductive Error : Type :=
| SystemError (code : jsstring)     (* a failed file-system call: EACCES, ENOENT, ... *)
| TypeError                         (* calling something that is not a function *)
| HostError.                        (* raised by the editor host *)

Inductive Outcome (A : Type) : Type :=
| Return (a : A)
| Throw (e : Error).
Arguments Return {A} a.
Arguments Throw {A} e.

#[global] Instance Outcome_ret : MRet Outcome := fun _ a => Return a.
#[global] Instance Outcome_bind : MBind Outcome := fun _ _ f o =>
  match o with
  | Return a => f a
  | Throw e => Throw e
  end.

(** [for (const x of l) { ... }] with a body that updates a state and may
    throw. *)
Fixpoint forOf {A S} (body : S -> A -> Outcome S) (s : S) (l : list A)
    : Outcome S :=
  match l with
  | [] => Return s
  | x :: rest =>
      match body s x with
      | Return s' => forOf body s' rest
      | Throw e => Throw e
      end
  end.

(** ** Objects used as dictionaries

    [let o = {}] creates an object whose own properties are the entries of
    the dictionary and which inherits the properties of [Object.prototype].
    A read [o[k]] sees an inherited property when there is no own one; an
    assignment [o[k] = v] creates or overwrites an own property, except for
    the key [__proto__], an accessor of [Object.prototype] whose setter
    replaces the prototype of [o] and creates no property.  [Object.keys]
    and object spread see own properties only. *)

Module JSObject.

Definition prototypeNames : list jsstring :=
  map js ["constructor"; "hasOwnProperty"; "isPrototypeOf";
          "propertyIsEnumerable"; "toLocaleString"; "toString"; "valueOf";
          "__defineGetter__"; "__defineSetter__"; "__lookupGetter__";
          "__lookupSetter__"; "__proto__"]%string.

(** Does [{}] inherit a property named [k]?  Every inherited value is a
    function or an object, hence truthy, and none is an array. *)
Definition inherited (k : jsstring) : bool :=
  bool_decide (k ∈ prototypeNames).

Definition protoKey : jsstring := js "__proto__".

(** [o[k] = v] for an object value [v].  The prototype link, which the
    assignment to [__proto__] changes, is read by none of the functions
    below and is not part of the model. *)
Definition assign {V} (o : gmap jsstring V) (k : jsstring) (v : V)
    : gmap jsstring V :=
  if bool_decide (k = protoKey) then o else <[k := v]> o.

(** [{ ...a, ...b }]: the own properties of [a], overwritten by those of [b]. *)
Definition spread {V} (a b : gmap jsstring V) : gmap jsstring V := b ∪ a.

(** [Object.keys(o)], as a list in no particular order. *)
Definition keys {V} (o : gmap jsstring V) : list jsstring :=
  (map_to_list o).*1.

End JSObject.

(** ** The editor's data types *)

Module Vscode.

Record Position : Type := mkPosition { line : nat; character : nat }.
Record Range : Type := mkRange { start : Position; end_ : Position }.
Record Location : Type := mkLocation { loc_uri : jsstring; range : Range }.

(** A text document: [lineCount] is the number of lines and [lineAt(row)]
    throws when [row] is not one of them. *)
Record TextDocument : Type := mkTextDocument {
  uri : jsstring;
  fileName : jsstring;
  lines : list jsstring
}.

Definition lineAt (d : TextDocument) (row : nat) : Outcome jsstring :=
  match lines d !! row with
  | Some text => Return text
  | None => Throw HostError
  end.

Inductive CompletionItemKind : Type := Constant.
Record CompletionItem : Type := mkCompletionItem {
  label : jsstring;
  kind : CompletionItemKind
}.

Record CompletionContext : Type := mkCompletionContext {
  triggerCharacter : option jsstring
}.

End Vscode.
Import Vscode.

(** ** Regular expressions of the extension *)

Definition lit (s : string) : Regex := Lit (js s).

(** [^\s*\{#] *)
Definition SecStartRegEx : Regex :=
  Seq Bol (Seq (Star isSpace) (lit "{#")).
(** [^[`:]{3,}\{figure-md\}\s*] *)
Definition FigureMdRegEx : Regex :=
  Seq Bol (Seq (Rep (oneOf (js "`:")) 3) (Seq (lit "{figure-md}") (Star isSpace))).
(** [^\s*:name:\s*] *)
Definition NameRegEx : Regex :=
  Seq Bol (Seq (Star isSpace) (Seq (lit ":name:") (Star isSpace))).
(** The class of [[\w:+\-.,@]+] *)
Definition isLabelChar (c : N) : bool :=
  isWord c || oneOf (js ":+-.,@") c.
(** [[\w:+\-.,@]+] *)
Definition LabelRegEx : Regex := Plus isLabelChar.

(** [(SecStartRegEx|FigureMdRegEx|NameRegEx)(LabelRegEx)] *)
Definition defRegex : Regex :=
  Seq (Group 1 (Alt SecStartRegEx (Alt FigureMdRegEx NameRegEx)))
      (Group 2 LabelRegEx).

(** [(\{numref\}`|\]\()(LabelRegEx)] *)
Definition refRegex : Regex :=
  Seq (Group 1 (Alt (lit "{numref}`") (lit "](")))
      (Group 2 LabelRegEx).

(** ** Indexing one document *)

(** The body shared by both scanners: when [match.indices[2]] is there,
    the symbol [match[2]] and its location. *)
Definition symbolOf (docUri : jsstring) (row : nat) (text : jsstring) (m : Match)
    : option (jsstring * Location) :=
  match capture (m_caps m) 2 with
  | Some (s, e) =>
      Some (slice text s e,
            mkLocation docUri (mkRange (mkPosition row s) (mkPosition row e)))
  | None => None
  end.

(** The matches of a document in scan order: rows in order and, within a
    row, the order of [matchAll]. *)
Fixpoint scanRows (regex : Regex) (docUri : jsstring) (row : nat)
    (rest : list jsstring) : list (jsstring * Location) :=
  match rest with
  | [] => []
  | text :: rest' =>
      omap (symbolOf docUri row text) (matchAll regex text)
      ++ scanRows regex docUri (S row) rest'
  end.

Definition scan (regex : Regex) (textDoc : TextDocument)
    : list (jsstring * Location) :=
  scanRows regex (uri textDoc) 0 (lines textDoc).

(** [locations[symbol] = new vscode.Location(...)] *)
Definition defStep (locations : gmap jsstring Location)
    (hit : jsstring * Location) : gmap jsstring Location :=
  JSObject.assign locations hit.1 hit.2.

Definition queryCrossRefDefLocations (textDoc : TextDocument)
    : gmap jsstring Location :=
  foldl defStep ∅ (scan defRegex textDoc).

(** The reference scanner appends to the array of a symbol it has seen and
    creates the array otherwise; [locations[symbol]] is also truthy when the
    symbol names an inherited property, which has no [push]. *)
Definition refStep (acc : Outcome (gmap jsstring (list Location)))
    (hit : jsstring * Location) : Outcome (gmap jsstring (list Location)) :=
  locations ← acc;
  match locations !! hit.1 with
  | Some locs => Return (<[hit.1 := locs ++ [hit.2]]> locations)
  | None =>
      if JSObject.inherited hit.1 then Throw TypeError
      else Return (<[hit.1 := [hit.2]]> locations)
  end.

Definition queryReferenceLocations (textDoc : TextDocument)
    : Outcome (gmap jsstring (list Location)) :=
  foldl refStep (Return ∅) (scan refRegex textDoc).

(** ** The host: paths, file system, document provider, scheduling *)

(** Node's [path] module.  The extension uses [path.join] and
    [path.dirname]; that repeated [dirname] reaches a fixed point (the root,
    or [.] for a relative path) is recorded by a measure. *)
Class PathModule : Type := {
  path_join : jsstring -> jsstring -> jsstring;
  path_dirname : jsstring -> jsstring;
  path_depth : jsstring -> nat;
  path_dirname_depth : forall p,
    path_dirname p <> p -> (path_depth (path_dirname p) < path_depth p)%nat
}.

(** What [fs.readdir(directory, { withFileTypes: true })] finds: an error, or
    the entries of the directory; an entry for which [isDirectory()] holds
    carries what reading that directory finds in turn. *)
Inductive Readdir : Type :=
| Entries (files : list Dirent)
| ReaddirError (e : Error)
with Dirent : Type :=
| File (name : jsstring)
| Directory (name : jsstring) (content : Readdir).

Record World : Type := mkWorld {
  (** [fs.access(path, F_OK)] *)
  fs_access : jsstring -> Outcome unit;
  (** [fs.readdir] at a directory and below *)
  fs_readdir : jsstring -> Readdir;
  (** [vscode.workspace.openTextDocument(path)] *)
  openTextDocument : jsstring -> Outcome TextDocument;
  (** the order in which concurrently started tasks, one per listed file,
      resume after their [await] *)
  resumeOrder : list jsstring -> list jsstring
}.

(** Every started task resumes exactly once. *)
Definition fairOrder (w : World) : Prop :=
  forall files, resumeOrder w files ≡ₚ files.

(** ** Path and file utilities *)

Definition doesFileExists (w : World) (filePath : jsstring) : bool :=
  match fs_access w filePath with
  | Return _ => true
  | Throw _ => false
  end.

Definition isMarkdownFile (fileName : jsstring) : bool :=
  endsWith fileName (js ".md").

(** [markdownFiles.add(fullPath)] on a [Set], kept in insertion order. *)
Definition setAdd (s : list jsstring) (x : jsstring) : list jsstring :=
  if bool_decide (x ∈ s) then s else s ++ [x].

Section WithPath.
Context {PM : PathModule}.

Fixpoint searchDirectory (directory : jsstring) (content : Readdir)
    (markdownFiles : list jsstring) {struct content} : Outcome (list jsstring) :=
  match content with
  | ReaddirError e => Throw e
  | Entries files =>
      forOf (fun markdownFiles file =>
               match file with
               | Directory name sub =>
                   searchDirectory (path_join directory name) sub markdownFiles
               | File name =>
                   if isMarkdownFile name
                   then Return (setAdd markdownFiles (path_join directory name))
                   else Return markdownFiles
               end)
            markdownFiles files
  end.

Definition findMarkdownFiles (w : World) (dirPath : jsstring)
    : Outcome (list jsstring) :=
  searchDirectory dirPath (fs_readdir w dirPath) [].

Definition KEY_FILE : jsstring := js "conf.py".

Equations? getSphinxRoot (w : World) (dirPath : jsstring) : option jsstring
    by wf (path_depth dirPath) lt :=
  getSphinxRoot w dirPath with doesFileExists w (path_join dirPath KEY_FILE) := {
    | true => Some dirPath
    | false with decide (path_dirname dirPath = dirPath) := {
        | left _ => None
        | right _ => getSphinxRoot w (path_dirname dirPath) } }.
Proof. by apply path_dirname_depth. Qed.

(** [!sphinxRootDir]: [undefined] and the empty string are falsy. *)
Definition noRoot (sphinxRootDir : option jsstring) : bool :=
  match sphinxRootDir with
  | None | Some [] => true
  | Some (_ :: _) => false
  end.

(** ** Indexing a project *)

(** One task of [queryAllDefLocations], from the point where its document
    has been opened: [allSymbols = { ...allSymbols, ...symbols }]. *)
Definition defTask (w : World) (acc : Outcome (gmap jsstring Location))
    (f : jsstring) : Outcome (gmap jsstring Location) :=
  allSymbols ← acc;
  textDoc ← openTextDocument w f;
  let symbols := queryCrossRefDefLocations textDoc in
  Return (JSObject.spread allSymbols symbols).

Definition queryAllDefLocations (w : World) (curDoc : TextDocument)
    : Outcome (gmap jsstring Location) :=
  let sphinxRootDir := getSphinxRoot w (path_dirname (fileName curDoc)) in
  if noRoot sphinxRootDir then Return (queryCrossRefDefLocations curDoc)
  else
    markdownFiles ← findMarkdownFiles w (default [] sphinxRootDir);
    foldl (defTask w) (Return ∅) (resumeOrder w markdownFiles).

(** The callback of [Object.keys(refLocs).forEach], at a symbol of [refLocs]
    and its array [refLocs[symbol]]: the result of [concat] is dropped, so a
    symbol already in [allSymbols] keeps its array; a symbol that names an
    inherited property is truthy too and has no [concat]. *)
Definition refMergeStep (acc : Outcome (gmap jsstring (list Location)))
    (entry : jsstring * list Location)
    : Outcome (gmap jsstring (list Location)) :=
  allSymbols ← acc;
  match allSymbols !! entry.1 with
  | Some _ => Return allSymbols
  | None =>
      if JSObject.inherited entry.1 then Throw TypeError
      else Return (<[entry.1 := entry.2]> allSymbols)
  end.

Definition refTask (w : World) (acc : Outcome (gmap jsstring (list Location)))
    (f : jsstring) : Outcome (gmap jsstring (list Location)) :=
  allSymbols ← acc;
  textDoc ← openTextDocument w f;
  refLocs ← queryReferenceLocations textDoc;
  foldl refMergeStep (Return allSymbols) (map_to_list refLocs).

Definition queryAllReferenceLocations (w : World) (curDoc : TextDocument)
    : Outcome (gmap jsstring (list Location)) :=
  let sphinxRootDir := getSphinxRoot w (path_dirname (fileName curDoc)) in
  if noRoot sphinxRootDir then queryReferenceLocations curDoc
  else
    markdownFiles ← findMarkdownFiles w (default [] sphinxRootDir);
    foldl (refTask w) (Return ∅) (resumeOrder w markdownFiles).

(** ** Completion *)

(** The end of [provideCompletionItems], reached when no trigger check
    returned early: one item per key of the definition map. *)
Definition candidates (w : World) (document : TextDocument)
    : Outcome (option (list CompletionItem)) :=
  allIDLocations ← queryAllDefLocations w document;
  Return (Some (map (fun id => mkCompletionItem id Constant)
                    (JSObject.keys allIDLocations))).

Definition provideCompletionItems (w : World) (document : TextDocument)
    (position : Position) (context : CompletionContext)
    : Outcome (option (list CompletionItem)) :=
  if bool_decide (triggerCharacter context = Some (js "`")) then
    let keyword := js "{numref}`" in
    text ← lineAt document (line position);
    if negb (startsWith
               (substring1 text (Z.of_nat (character position)
                                 - Z.of_nat (length keyword)))
               keyword)
    then Return None
    else candidates w document
  else if bool_decide (triggerCharacter context = Some (js "(")) then
    text ← lineAt document (line position);
    if negb (bool_decide
               (substring2 text (Z.of_nat (character position) - 1) 1 = js "]"))
    then Return None
    else candidates w document
  else candidates w document.

End WithPath.

(** ** Go to definition and find references *)

(** What the providers use of the editor: the two methods of a document
    that they call, and the names of the properties that a [Location] object
    has of its own or inherits from its class. *)
Class Editor : Type := {
  (** [document.getWordRangeAtPosition(position, regex)] *)
  getWordRangeAtPosition : TextDocument -> Position -> Regex -> option Range;
  (** [document.getText(range)] *)
  getText : TextDocument -> Range -> jsstring;
  locationProperty : jsstring -> bool
}.

(** What a read [o[k]] of a dictionary of [V]s evaluates to: a [V], a value
    of another kind found along the prototype chain, or [undefined]. *)
Inductive Property (V : Type) : Type :=
| Value (v : V)
| Foreign
| Undefined.
Arguments Value {V} v.
Arguments Foreign {V}.
Arguments Undefined {V}.

(** [o[k]] for an object created by [{}] whose prototype is still
    [Object.prototype]. *)
Definition readProperty {V} (o : gmap jsstring V) (k : jsstring) : Property V :=
  match o !! k with
  | Some v => Value v
  | None => if JSObject.inherited k then Foreign else Undefined
  end.

(** An object of the definition scanner together with its prototype link:
    [None] stands for [Object.prototype], [Some l] for a location that was
    assigned to [__proto__]. *)
Record Dictionary : Type := mkDictionary {
  own : gmap jsstring Location;
  prototypeLink : option Location
}.

(** [locations[symbol] = new vscode.Location(...)], with the effect of the
    [__proto__] setter on the prototype link. *)
Definition defStepLinked (locations : Dictionary) (hit : jsstring * Location)
    : Dictionary :=
  if bool_decide (hit.1 = JSObject.protoKey)
  then mkDictionary (own locations) (Some hit.2)
  else mkDictionary (<[hit.1 := hit.2]> (own locations)) (prototypeLink locations).

(** The object that [queryCrossRefDefLocations] returns. *)
Definition scannedObject (textDoc : TextDocument) : Dictionary :=
  foldl defStepLinked (mkDictionary ∅ None) (scan defRegex textDoc).

(** [o[k]] for such an object: an own property; else, through a location
    as prototype, the location itself for [__proto__] (the getter of
    [Object.prototype] returns the prototype of [o]) and a foreign value for
    a property of the location; else what [Object.prototype] has. *)
Definition readLinked `{Editor} (o : Dictionary) (k : jsstring)
    : Property Location :=
  match own o !! k with
  | Some loc => Value loc
  | None =>
      match prototypeLink o with
      | Some l =>
          if bool_decide (k = JSObject.protoKey) then Value l
          else if locationProperty k || JSObject.inherited k then Foreign
          else Undefined
      | None => if JSObject.inherited k then Foreign else Undefined
      end
  end.

Section Providers.
Context {PM : PathModule} {ED : Editor}.

(** The object that [queryAllDefLocations] returns: without a root it is the
    object of the scan of the current document; in a project it is the last
    object built by a spread, whose prototype is [Object.prototype]. *)
Definition allDefObject (w : World) (curDoc : TextDocument)
    : Outcome Dictionary :=
  let sphinxRootDir := getSphinxRoot w (path_dirname (fileName curDoc)) in
  if noRoot sphinxRootDir then Return (scannedObject curDoc)
  else
    allSymbols ← queryAllDefLocations w curDoc;
    Return (mkDictionary allSymbols None).

Definition provideDefinition (w : World) (document : TextDocument)
    (position : Position) : Outcome (Property Location) :=
  match getWordRangeAtPosition document position LabelRegEx with
  | None => Return Undefined
  | Some wordRange =>
      let symbol := getText document wordRange in
      allIDLocations ← allDefObject w document;
      Return (readLinked allIDLocations symbol)
  end.

Definition provideReferences (w : World) (document : TextDocument)
    (position : Position) : Outcome (Property (list Location)) :=
  match getWordRangeAtPosition document position LabelRegEx with
  | None => Return Undefined
  | Some wordRange =>
      let symbol := getText document wordRange in
      allRefLocations ← queryAllReferenceLocations w document;
      Return (readProperty allRefLocations symbol)
  end.

End Providers.

(** ** POSIX paths

    [path.posix.dirname] as Node implements it, and [path.join] of a
    directory in normal form with a plain file name. *)

Module Posix.

Definition slash : N := 47.

(** The scan of [dirname] from the last character down to index 1, on the
    reversed tail of the path: the number of characters of the tail before
    the first slash that follows (leftwards) a character that is no slash. *)
Fixpoint findEnd (revTail : jsstring) (matchedSlash : bool) : option nat :=
  match revTail with
  | [] => None
  | c :: before =>
      if c =? slash
      then if matchedSlash then findEnd before true else Some (length before)
      else findEnd before false
  end.

Definition dirname (path : jsstring) : jsstring :=
  match path with
  | [] => js "."
  | c :: tail =>
      let hasRoot := c =? slash in
      match findEnd (rev tail) true with
      | None => if hasRoot then js "/" else js "."
      | Some n =>
          if hasRoot && Nat.eqb n 0 then js "//" else take (S n) path
      end
  end.

Definition join (dir name : jsstring) : jsstring :=
  if endsWith dir [slash] then dir ++ name else dir ++ slash :: name.

Definition depth (path : jsstring) : nat :=
  match path with
  | [] => 2
  | _ => if bool_decide (path = js ".") then 0 else S (2 * length path)
  end.

Lemma findEnd_lt revTail b n :
  findEnd revTail b = Some n ->
  (n + (if b then 2 else 1) <= length revTail)%nat.
Proof.
  revert b. induction revTail as [|c before IH]; intros b; simpl; [done|].
  destruct (c =? slash).
  - destruct b.
    + intros H. apply IH in H. lia.
    + intros [= <-]. lia.
  - intros H. apply IH in H. destruct b; lia.
Qed.

Lemma depth_le path : path <> [] -> (depth path <= S (2 * length path))%nat.
Proof.
  destruct path; [done|]. intros _. unfold depth. case_bool_decide; lia.
Qed.

Lemma depth_long path :
  (1 < length path)%nat -> depth path = S (2 * length path).
Proof.
  destruct path as [|c [|d tail]]; simpl; try lia. intros _.
  unfold depth. by case_bool_decide.
Qed.

Lemma depth_take n path :
  (0 < n < length path)%nat -> (depth (take n path) < depth path)%nat.
Proof.
  intros Hn.
  assert (length (take n path) = n) as Hl by (rewrite length_take; lia).
  rewrite (depth_long path) by lia.
  pose proof (depth_le (take n path)) as Hle.
  destruct (take n path); [simpl in Hl; lia|].
  specialize (Hle ltac:(done)). lia.
Qed.

Lemma dirname_depth p : dirname p <> p -> (depth (dirname p) < depth p)%nat.
Proof.
  destruct p as [|c tail]; [intros _; vm_compute; lia|].
  unfold dirname. destruct (findEnd (rev tail) true) as [n|] eqn:E.
  - apply findEnd_lt in E. rewrite length_rev in E. intros _.
    destruct ((c =? slash) && Nat.eqb n 0).
    + rewrite (depth_long (c :: tail)) by (simpl; lia).
      change (depth (js "//")) with 5%nat. simpl. lia.
    + apply depth_take. simpl. lia.
  - destruct (c =? slash) eqn:Hc.
    + apply N.eqb_eq in Hc. subst c. destruct tail as [|d tail]; [done|].
      intros _. rewrite (depth_long (slash :: d :: tail)) by (simpl; lia).
      change (depth (js "/")) with 3%nat. simpl. lia.
    + intros Hne. change (depth (js ".")) with 0%nat.
      unfold depth. case_bool_decide; [congruence|]. lia.
Qed.

#[global] Instance posix : PathModule := {|
  path_join := join;
  path_dirname := dirname;
  path_depth := depth;
  path_dirname_depth := dirname_depth
|}.

End Posix.

(** ** Example projects *)

Module Examples.
Import Posix.

Definition ENOENT : Error := SystemError (js "ENOENT").
Definition EACCES : Error := SystemError (js "EACCES").

(** A document at [path] with the given lines. *)
Definition document (path : string) (text : list string) : TextDocument :=
  mkTextDocument (js "file://" ++ js path) (js path) (map js text).
Arguments document path%_string text%_list.

(** A project rooted at [root]: [root/conf.py] exists, [root] holds the given
    markdown files and nothing else exists; tasks resume in [order]. *)
Definition project (root : string) (files : list (string * list string))
    (order : list jsstring -> list jsstring) : World :=
  mkWorld
    (fun p => if bool_decide (p = join (js root) KEY_FILE)
              then Return tt else Throw ENOENT)
    (fun p => if bool_decide (p = js root)
              then Entries (map (fun f => File (js f.1)) files)
              else ReaddirError ENOENT)
    (fun p => match
                list_find (fun f => join (js root) (js f.1) = p) files
              with
              | Some (_, f) =>
                  Return (mkTextDocument (js "file://" ++ p) p (map js f.2))
              | None => Throw HostError
              end)
    order.

(** [X] is referenced twice in [A.md] and once in [B.md]. *)
Definition refsAB : list (string * list string) :=
  [("A.md", ["See [one](X) and {numref}`X`."]); ("B.md", ["[two](X)"])]%string.

(** [A.md] and [B.md] define different identifiers. *)
Definition defsDisjoint : list (string * list string) :=
  [("A.md", ["{#intro}"; ":name: tbl-1"]); ("B.md", ["```{figure-md} fig-1"])]%string.

(** [A.md] and [B.md] both define [intro]. *)
Definition defsClash : list (string * list string) :=
  [("A.md", ["{#intro}"]); ("B.md", ["text"; "{#intro}"])]%string.

(** [A.md] and [B.md] both define [__proto__]. *)
Definition defsProto : list (string * list string) :=
  [("A.md", ["{#__proto__}"]); ("B.md", ["text"; "{#__proto__}"])]%string.

(** Single documents. *)
Definition docA : TextDocument :=
  document "/p/a/A.md" ["See [one](X) and {numref}`X`."]%string.
Definition docB : TextDocument :=
  document "/p/a/B.md" ["[two](X)"]%string.

Definition docProto : TextDocument :=
  document "/p/a/P.md" ["{#__proto__}"]%string.
Definition docConstructor : TextDocument :=
  document "/p/a/C.md" ["[the class](constructor)"]%string.
Definition docUnderscore : TextDocument :=
  document "/p/a/U.md" ["{#a_b}"; "see [this](a_b)"]%string.

Definition fileA : jsstring := js "/p/a/A.md".
Definition fileB : jsstring := js "/p/a/B.md".

(** The documents that a project at [/p/a] opens for its files. *)
Definition opened (files : list (string * list string)) (f : jsstring)
    : TextDocument :=
  match openTextDocument (project "/p/a" files (fun l => l)) f with
  | Return d => d
  | Throw _ => mkTextDocument [] [] []
  end.

(** A project of one file, with a role being typed on its second line. *)
Definition typing : list (string * list string) :=
  [("A.md", ["{#intro}"; "see {numref}`"; "plain text"; "[a]("])]%string.
Definition docTyping : TextDocument := opened typing fileA.

(** A project whose root can be searched but not listed. *)
Definition unreadable : World :=
  mkWorld
    (fun p => if bool_decide (p = js "/p/a/conf.py")
              then Return tt else Throw EACCES)
    (fun _ => ReaddirError EACCES)
    (fun _ => Throw HostError)
    (fun files => files).

(** A project whose only markdown file is listed and then cannot be opened,
    as when it is deleted between the two steps. *)
Definition raced : World :=
  mkWorld
    (fun p => if bool_decide (p = js "/p/a/conf.py")
              then Return tt else Throw ENOENT)
    (fun p => if bool_decide (p = js "/p/a")
              then Entries [File (js "A.md")] else ReaddirError ENOENT)
    (fun _ => Throw ENOENT)
    (fun files => files).

(** A file system on which every existence check fails. *)
Definition nothing : World :=
  mkWorld (fun _ => Throw EACCES) (fun _ => ReaddirError EACCES)
          (fun _ => Throw HostError) (fun files => files).

(** An editor in which the word at a position is the match of the pattern
    that spans the caret's column, the text of a range within a line is the
    slice of that line, and a location has the properties [uri], [range] and
    [toJSON]. *)
Definition wordRangeAt (textDoc : TextDocument) (position : Position)
    (regex : Regex) : option Range :=
  text ← lines textDoc !! line position;
  found ← list_find
            (fun m => (m_start m <= character position <= m_end m)%nat)
            (matchAll regex text);
  Some (mkRange (mkPosition (line position) (m_start found.2))
                (mkPosition (line position) (m_end found.2))).

Definition textOf (textDoc : TextDocument) (r : Range) : jsstring :=
  match lines textDoc !! line (start r) with
  | Some text => slice text (character (start r)) (character (end_ r))
  | None => []
  end.

Definition editor : Editor :=
  {| getWordRangeAtPosition := wordRangeAt;
     getText := textOf;
     locationProperty k :=
       bool_decide (k ∈ [js "uri"; js "range"; js "toJSON"]) |}.

(** A document outside any project that defines [__proto__] and [intro]. *)
Definition docLoose : TextDocument :=
  document "/q/x/L.md" ["{#intro}"; "{#__proto__}"; "see [it](intro) or [that](__proto__)"]%string.

(** [A.md] defines [intro] and refers to it once; [B.md] refers to it
    twice. *)
Definition linked : list (string * list string) :=
  [("A.md", ["{#intro}"; "see [it](intro)"; "a]("]);
   ("B.md", ["[start](intro) {numref}`intro`"])]%string.

(** The place of [intro] in the first line of [A.md] and in its second. *)
Definition introDefined : Location :=
  mkLocation (js "file:///p/a/A.md") (mkRange (mkPosition 0 2) (mkPosition 0 7)).
Definition introReferenced : Location :=
  mkLocation (js "file:///p/a/A.md") (mkRange (mkPosition 1 9) (mkPosition 1 14)).

End Examples.

(** ** Vocabulary of the properties *)

(** The locations scanned for symbol [X], in scan order. *)
Definition occurrences (X : jsstring) (hits : list (jsstring * Location))
    : list Location :=
  (filter (fun h => h.1 = X) hits).*2.

(** [m] binds every scanned symbol to all its locations, in scan order, and
    binds nothing else. *)
Definition refIndex (hits : list (jsstring * Location))
    (m : gmap jsstring (list Location)) : Prop :=
  forall X, m !! X = match occurrences X hits with
                     | [] => None
                     | locs => Some locs
                     end.

(** The [k]-th ancestor of a directory, itself for [k = 0]. *)
Definition ancestor `{PathModule} (k : nat) (dir : jsstring) : jsstring :=
  Nat.iter k path_dirname dir.

(** The directory contains [conf.py], as far as the existence check tells. *)
Definition hasConf `{PathModule} (w : World) (dir : jsstring) : bool :=
  doesFileExists w (path_join dir KEY_FILE).

(** The first failed [readdir] that a walk of the tree meets, if any. *)
Fixpoint readdirError (content : Readdir) : option Error :=
  match content with
  | ReaddirError e => Some e
  | Entries files =>
      (fix each (files : list Dirent) : option Error :=
         match files with
         | [] => None
         | File _ :: rest => each rest
         | Directory _ sub :: rest =>
             match readdirError sub with
             | Some e => Some e
             | None => each rest
             end
         end) files
  end.

(** The paths of the tree's entries that are no directories and whose name
    ends in [.md], in the order of the walk. *)
Fixpoint markdownPaths `{PathModule} (directory : jsstring) (content : Readdir)
    : list jsstring :=
  match content with
  | ReaddirError _ => []
  | Entries files =>
      (fix each (files : list Dirent) : list jsstring :=
         match files with
         | [] => []
         | File name :: rest =>
             (if isMarkdownFile name then [path_join directory name] else [])
             ++ each rest
         | Directory name sub :: rest =>
             markdownPaths (path_join directory name) sub ++ each rest
         end) files
  end.

(** The location that the file [f] of a project gives the identifier [X],
    when the file can be opened and defines it. *)
Definition definedIn (w : World) (X : jsstring) (f : jsstring) : option Location :=
  match openTextDocument w f with
  | Return textDoc => queryCrossRefDefLocations textDoc !! X
  | Throw _ => None
  end.

(** The characters of [[\w:+\-.,@]]. *)
Definition labelAlphabet : jsstring :=
  js "ABCDEFGHIJKLMNOPQRSTUVWXYZabcdefghijklmnopqrstuvwxyz0123456789_:+-.,@".

(** ** The grammar of definitions and references

    What the README calls a definition and a reference, stated over the text
    of a line. *)

(** [sym] is written at column [s] of [text] as a whole identifier: a
    non-empty run of label characters that cannot be extended to the right. *)
Definition identifierAt (text : jsstring) (s : nat) (sym : jsstring) : Prop :=
  sym <> []
  /\ Forall (fun c => isLabelChar c = true) sym
  /\ take (length sym) (drop s text) = sym
  /\ (forall c, text !! (s + length sym)%nat = Some c -> isLabelChar c = false).

(** The text that may precede the identifier of a definition, from the start
    of the line: [{#] after white space; a fence of three or more backticks
    and colons, [{figure-md}] and white space; or [:name:] between white
    space. *)
Definition definitionPrefix (p : jsstring) : Prop :=
  (exists ws, Forall (fun c => isSpace c = true) ws /\ p = ws ++ js "{#")
  \/ (exists fence ws,
        (3 <= length fence)%nat
        /\ Forall (fun c => oneOf (js "`:") c = true) fence
        /\ Forall (fun c => isSpace c = true) ws
        /\ p = fence ++ js "{figure-md}" ++ ws)
  \/ (exists ws1 ws2,
        Forall (fun c => isSpace c = true) ws1
        /\ Forall (fun c => isSpace c = true) ws2
        /\ p = ws1 ++ js ":name:" ++ ws2).

(** The text that immediately precedes the identifier of a reference. *)
Definition referenceTrigger (t : jsstring) : Prop :=
  t = js "{numref}`" \/ t = js "](".

(** Column [s] of [text] comes right after a reference trigger. *)
Definition afterTrigger (text : jsstring) (s : nat) : Prop :=
  exists t, referenceTrigger t
            /\ (length t <= s)%nat
            /\ take (length t) (drop (s - length t) text) = t.

(** The location of [sym] written at column [s] of line [row]. *)
Definition located (docUri : jsstring) (row s : nat) (sym : jsstring) : Location :=
  mkLocation docUri
    (mkRange (mkPosition row s) (mkPosition row (s + length sym))).

(** The declarative reading of an expression: [r] matches [text] from [i]
    to [j], whatever a backtracking matcher would try first. *)
Fixpoint recognises (r : Regex) (text : jsstring) (i j : nat) : Prop :=
  match r with
  | Bol => i = 0%nat /\ j = i
  | Lit l => take (length l) (drop i text) = l /\ j = (i + length l)%nat
  | Rep cls min => (i + min <= j <= i + run cls (drop i text))%nat
  | Seq r1 r2 => exists k, recognises r1 text i k /\ recognises r2 text k j
  | Alt r1 r2 => recognises r1 text i j \/ recognises r2 text i j
  | Group _ r1 => recognises r1 text i j
  end.

(** Expressions without capture groups. *)
Fixpoint groupFree (r : Regex) : bool :=
  match r with
  | Bol | Lit _ | Rep _ _ => true
  | Seq r1 r2 | Alt r1 r2 => groupFree r1 && groupFree r2
  | Group _ _ => false
  end.

(** The match of a labelled expression, given where the label starts. *)
Definition labelMatch (i s n : nat) : Match :=
  mkMatch i (s + n) [(2%nat, (s, (s + n)%nat)); (1%nat, (i, s))].

(** The locations that the file [f] of a project gives the references to
    [X], when the file can be opened and scanned and refers to [X]. *)
Definition referencedIn (w : World) (X : jsstring) (f : jsstring)
    : option (list Location) :=
  match openTextDocument w f with
  | Return textDoc =>
      match queryReferenceLocations textDoc with
      | Return refLocs => refLocs !! X
      | Throw _ => None
      end
  | Throw _ => None
  end.

(** No reference of the document names a property that an object inherits
    from [Object.prototype]. *)
Definition plainReferences (textDoc : TextDocument) : Prop :=
  forall row text s sym,
    lines textDoc !! row = Some text ->
    afterTrigger text s ->
    identifierAt text s sym ->
    JSObject.inherited sym = false.

(** The documents that a query started from [curDoc] indexes: the markdown
    files below the root that can be opened or, without a root, [curDoc]. *)
Definition inScope `{PathModule} (w : World) (curDoc textDoc : TextDocument)
    : Prop :=
  let sphinxRootDir := getSphinxRoot w (path_dirname (fileName curDoc)) in
  if noRoot sphinxRootDir then textDoc = curDoc
  else exists files f,
      findMarkdownFiles w (default [] sphinxRootDir) = Return files
      /\ f ∈ files
      /\ openTextDocument w f = Return textDoc.

(** [l1] ends before [l2] starts: on an earlier line, or on the same line
    at or before the column where [l2] starts. *)
Definition precedes (l1 l2 : Location) : Prop :=
  (line (end_ (range l1)) < line (start (range l2)))%nat
  \/ (line (end_ (range l1)) = line (start (range l2))
      /\ (character (end_ (range l1)) <= character (start (range l2)))%nat).

(** * Properties *)

(** ** Strings *)

Lemma startsWith_take s p :
  startsWith s p = true <-> take (length p) s = p.
Proof.
  revert s. induction p as [|c p IH]; intros s.
  - by destruct s.
  - destruct s as [|d s]; simpl; [done|].
    rewrite andb_true_iff, N.eqb_eq, IH. split.
    + by intros [-> ->].
    + intros [= -> Hp]. by rewrite Hp.
Qed.

Lemma substring1_drop s (i : nat) :
  substring1 s (Z.of_nat i) = drop i s.
Proof.
  unfold substring1, substring2, clamp. rewrite !Nat2Z.id.
  rewrite Nat.min_id.
  destruct (Nat.le_ge_cases i (length s)) as [Hle|Hge].
  - rewrite (Nat.min_l i) by done. rewrite Nat.min_l, Nat.max_r by done.
    apply take_ge. rewrite length_drop. lia.
  - rewrite (Nat.min_r i) by done. rewrite Nat.min_id, Nat.max_id, Nat.sub_diag.
    rewrite take_0. symmetry. by apply drop_ge.
Qed.

(** ** Regular expression matching *)

Lemma run_le cls s : (run cls s <= length s)%nat.
Proof. induction s as [|c s IH]; simpl; [lia|]. destruct (cls c); simpl; lia. Qed.

Lemma run_Forall cls s : Forall (fun c => cls c = true) (take (run cls s) s).
Proof.
  induction s as [|c s IH]; simpl; [constructor|].
  destruct (cls c) eqn:Hc; simpl; by constructor.
Qed.

Lemma run_maximal cls s c :
  s !! run cls s = Some c -> cls c = false.
Proof.
  induction s as [|d s IH]; simpl; [done|].
  destruct (cls d) eqn:Hd; simpl; [done|]. by intros [= <-].
Qed.

Lemma run_all cls s :
  Forall (fun c => cls c = true) s -> run cls s = length s.
Proof. induction 1 as [|c s Hc _ IH]; simpl; [done|]. by rewrite Hc, IH. Qed.

Lemma run_lookup cls s j c :
  (j < run cls s)%nat -> s !! j = Some c -> cls c = true.
Proof.
  revert j. induction s as [|d s IH]; intros j; simpl; [lia|].
  destruct (cls d) eqn:Hd; [|lia]. destruct j; simpl.
  - by intros _ [= <-].
  - intros Hj. apply IH. lia.
Qed.

Lemma backoff_cont {A} (k : nat -> option A) i min n x :
  backoff k i min n = Some x ->
  exists j, (i + min <= j <= i + n)%nat /\ k j = Some x.
Proof.
  induction n as [|n IH]; simpl.
  - destruct (Nat.ltb_spec 0 min); [done|].
    destruct (k (i + 0)%nat) eqn:Hk; [|done].
    intros [= <-]. exists (i + 0)%nat. split; [lia|done].
  - destruct (Nat.ltb_spec (S n) min); [done|].
    destruct (k (i + S n)%nat) eqn:Hk.
    + intros [= <-]. exists (i + S n)%nat. split; [lia|done].
    + intros Hb. destruct (IH Hb) as (j & Hj & Hkj).
      exists j. split; [lia|done].
Qed.

(** A greedy repetition followed by something that cannot fail takes the
    whole run. *)
Lemma backoff_total {A} (k : nat -> A) i min n :
  backoff (fun j => Some (k j)) i min n
  = if Nat.ltb n min then None else Some (k (i + n)%nat).
Proof. destruct n; simpl; by destruct (Nat.ltb _ min). Qed.

(** Whatever a match returns was returned by its continuation, at a position
    not before the start and not beyond the text. *)
Lemma rmatch_cont {A} r text : forall i caps (k : nat -> Captures -> option A) x,
  rmatch r text i caps k = Some x ->
  exists j caps', (i <= j <= Nat.max i (length text))%nat /\ k j caps' = Some x.
Proof.
  induction r as [|l|cls min|r1 IH1 r2 IH2|r1 IH1 r2 IH2|idx r IH];
    intros i caps k x; simpl.
  - destruct (Nat.eqb i 0); [|done]. intros Hk. exists i, caps. split; [lia|done].
  - destruct (startsWith (drop i text) l) eqn:Hsw; [|done].
    intros Hk. exists (i + length l)%nat, caps. split; [|done].
    apply startsWith_take in Hsw. apply (f_equal length) in Hsw.
    rewrite length_take, length_drop in Hsw. lia.
  - intros Hb. apply backoff_cont in Hb as (j & Hj & Hk).
    exists j, caps. split; [|done].
    pose proof (run_le cls (drop i text)) as Hrun.
    rewrite length_drop in Hrun. lia.
  - intros H1. apply IH1 in H1 as (j1 & caps1 & Hj1 & H2).
    apply IH2 in H2 as (j2 & caps2 & Hj2 & Hk).
    exists j2, caps2. split; [lia|done].
  - destruct (rmatch r1 text i caps k) eqn:H1.
    + intros [= <-]. by apply IH1 in H1.
    + apply IH2.
  - intros H1. apply IH in H1 as (j & caps1 & Hj & Hk). by eexists _, _.
Qed.

Lemma matchAt_bounds r text i m :
  matchAt r text i = Some m ->
  m_start m = i /\ (i <= m_end m <= Nat.max i (length text))%nat.
Proof.
  unfold matchAt. intros Hm.
  apply rmatch_cont in Hm as (j & caps & Hj & [= <-]). by simpl.
Qed.

Lemma search_found fuel r text start m :
  search fuel r text start = Some m ->
  exists i, (start <= i <= start + fuel)%nat /\ matchAt r text i = Some m
            /\ forall i', (start <= i' < i)%nat -> matchAt r text i' = None.
Proof.
  revert start. induction fuel as [|fuel IH]; intros start; simpl.
  - destruct (matchAt r text start) eqn:Hm; [|done]. intros [= <-].
    exists start. repeat split; [lia|lia|done|]. lia.
  - destruct (matchAt r text start) eqn:Hm.
    + intros [= <-]. exists start. repeat split; [lia|lia|done|]. lia.
    + intros Hs. apply IH in Hs as (i & Hi & Hmi & Hnone).
      exists i. repeat split; [lia|lia|done|].
      intros i' Hi'. destruct (decide (i' = start)) as [->|]; [done|].
      apply Hnone. lia.
Qed.

Lemma search_None fuel r text start :
  search fuel r text start = None ->
  forall i, (start <= i <= start + fuel)%nat -> matchAt r text i = None.
Proof.
  revert start. induction fuel as [|fuel IH]; intros start; simpl.
  - destruct (matchAt r text start) eqn:Hm; [done|]. intros _ i Hi.
    by replace i with start by lia.
  - destruct (matchAt r text start) eqn:Hm; [done|]. intros Hs i Hi.
    destruct (decide (i = start)) as [->|]; [done|]. apply (IH _ Hs). lia.
Qed.

(** [exec] finds the leftmost position at or after [lastIndex] at which the
    expression matches. *)
Lemma exec_Some r text lastIndex m :
  exec r text lastIndex = Some m ->
  (lastIndex <= m_start m <= length text)%nat
  /\ (m_start m <= m_end m <= length text)%nat
  /\ matchAt r text (m_start m) = Some m
  /\ forall i, (lastIndex <= i < m_start m)%nat -> matchAt r text i = None.
Proof.
  unfold exec. destruct (Nat.ltb_spec (length text) lastIndex); [done|].
  intros Hs. apply search_found in Hs as (i & Hi & Hm & Hnone).
  destruct (matchAt_bounds _ _ _ _ Hm) as [-> Hend].
  repeat split; [lia|lia|lia|lia|done|done].
Qed.

Lemma exec_None r text lastIndex :
  exec r text lastIndex = None ->
  forall i, (lastIndex <= i <= length text)%nat -> matchAt r text i = None.
Proof.
  unfold exec. destruct (Nat.ltb_spec (length text) lastIndex); [lia|].
  intros Hs i Hi. apply (search_None _ _ _ _ Hs). lia.
Qed.

Lemma resumeAt_gt m : (m_start m <= m_end m)%nat -> (m_start m < resumeAt m)%nat.
Proof. unfold resumeAt. destruct (Nat.eqb_spec (m_end m) (m_start m)); lia. Qed.

(** The fuel of [matchAll] is enough: more fuel finds no further match. *)
Lemma matchAllFrom_fuel r text fuel fuel' lastIndex :
  (length text < fuel + lastIndex)%nat -> (fuel <= fuel')%nat ->
  matchAllFrom fuel r text lastIndex = matchAllFrom fuel' r text lastIndex.
Proof.
  revert fuel' lastIndex. induction fuel as [|fuel IH]; intros fuel' lastIndex Hlen Hle.
  - destruct fuel'; simpl; [done|].
    unfold exec. destruct (Nat.ltb_spec (length text) lastIndex); [done|lia].
  - destruct fuel' as [|fuel']; [lia|]. simpl.
    destruct (exec r text lastIndex) as [m|] eqn:Hm; [|done]. f_equal.
    apply exec_Some in Hm as (Hstart & Hend & _).
    pose proof (resumeAt_gt m ltac:(lia)) as Hgt.
    apply IH; lia.
Qed.

(** Every match reported by [matchAll] is the match of the expression at
    its start position. *)
Lemma matchAllFrom_matchAt fuel r text lastIndex m :
  m ∈ matchAllFrom fuel r text lastIndex ->
  (lastIndex <= m_start m <= length text)%nat
  /\ (m_start m <= m_end m <= length text)%nat
  /\ matchAt r text (m_start m) = Some m.
Proof.
  revert lastIndex. induction fuel as [|fuel IH]; intros lastIndex; simpl.
  - by intros ?%elem_of_nil.
  - destruct (exec r text lastIndex) as [m0|] eqn:Hm; [|by intros ?%elem_of_nil].
    apply exec_Some in Hm as (Hstart & Hend & Hat & _).
    intros [->|Hin]%elem_of_cons; [done|].
    apply IH in Hin as (Hs & He & Hm).
    pose proof (resumeAt_gt m0 ltac:(lia)) as Hgt.
    repeat split; [lia|lia|lia|lia|done].
Qed.

(** No match is skipped: a position at which the expression matches is the
    start of a reported match or lies inside one. *)
Lemma matchAllFrom_complete fuel r text lastIndex i m' :
  (length text < fuel + lastIndex)%nat ->
  (lastIndex <= i <= length text)%nat ->
  matchAt r text i = Some m' ->
  exists m, m ∈ matchAllFrom fuel r text lastIndex
            /\ (m = m' \/ (m_start m < i < m_end m)%nat).
Proof.
  revert lastIndex. induction fuel as [|fuel IH]; intros lastIndex Hfuel Hi Hm';
    [lia|]. simpl.
  destruct (exec r text lastIndex) as [m|] eqn:Hm.
  - pose proof Hm as (Hstart & Hend & Hat & Hnone)%exec_Some.
    destruct (Nat.lt_trichotomy i (m_start m)) as [Hlt|[->|Hgt]].
    + rewrite Hnone in Hm' by lia. done.
    + exists m. split; [by left|]. left. congruence.
    + destruct (Nat.lt_ge_cases i (resumeAt m)) as [Hin|Hout].
      * exists m. split; [by left|]. right.
        unfold resumeAt in Hin. destruct (Nat.eqb_spec (m_end m) (m_start m)); lia.
      * pose proof (resumeAt_gt m ltac:(lia)).
        destruct (IH (resumeAt m)) as (m1 & Hin1 & Hm1); [lia|lia|done|].
        exists m1. split; [by right|done].
  - apply exec_None with (i := i) in Hm; [congruence|lia].
Qed.

(** All matches of a line are reported, not only the first: a position at
    which the expression matches is the start of a reported match or lies
    inside one. *)
Theorem matchAll_complete r text i m' :
  (i <= length text)%nat ->
  matchAt r text i = Some m' ->
  exists m, m ∈ matchAll r text /\ (m = m' \/ (m_start m < i < m_end m)%nat).
Proof. intros Hi. apply matchAllFrom_complete; lia. Qed.

Lemma matchAll_complete_witness :
  exists m,
    m ∈ matchAll refRegex (js "[a](b) [c](d)")
    /\ (m = mkMatch 9 12 [(2%nat, (11%nat, 12%nat)); (1%nat, (9%nat, 11%nat))]
        \/ (m_start m < 9 < m_end m)%nat).
Proof.
  apply (matchAll_complete refRegex (js "[a](b) [c](d)") 9);
    [vm_compute; lia | vm_compute; reflexivity].
Defined.

Lemma search_hit fuel r text start m :
  matchAt r text start = Some m -> search fuel r text start = Some m.
Proof. intros Hm. destruct fuel; simpl; by rewrite Hm. Qed.

(** A match that spans a whole non-empty line is the only one. *)
Lemma matchAll_whole_line r text m :
  matchAt r text 0 = Some m ->
  m_end m = length text ->
  text <> [] ->
  matchAt r text (length text) = None ->
  matchAll r text = [m].
Proof.
  intros Hm Hend Hne Hnone. unfold matchAll. simpl.
  unfold exec at 1. simpl. rewrite (search_hit _ _ _ _ _ Hm).
  destruct (matchAt_bounds _ _ _ _ Hm) as [Hstart _].
  unfold resumeAt. rewrite Hstart, Hend.
  destruct text as [|c text]; [done|]. simpl Nat.eqb.
  cbv iota. f_equal. destruct (length (c :: text)) eqn:Hlen; [done|]. simpl.
  unfold exec. rewrite Hlen, Nat.ltb_irrefl, Nat.sub_diag. simpl.
  by rewrite Hnone.
Qed.

Lemma search_miss fuel r text start :
  (forall i, (start <= i)%nat -> matchAt r text i = None) ->
  search fuel r text start = None.
Proof.
  revert start. induction fuel as [|fuel IH]; intros start Hnone; simpl;
    rewrite (Hnone start) by lia; [done|]. apply IH. intros i Hi. apply Hnone. lia.
Qed.

Lemma matchAllFrom_miss fuel r text lastIndex :
  (forall i, (lastIndex <= i)%nat -> matchAt r text i = None) ->
  matchAllFrom fuel r text lastIndex = [].
Proof.
  intros Hnone. destruct fuel; simpl; [done|]. unfold exec.
  destruct (Nat.ltb _ _); [done|]. by rewrite search_miss.
Qed.

(** ** What the scanners capture *)

(** Both scanners use an expression of the shape [(prefix)(LabelRegEx)]:
    group 2 is the whole run of label characters at the end of the match. *)
Lemma matchAt_label prefix text i m :
  matchAt (Seq (Group 1 prefix) (Group 2 LabelRegEx)) text i = Some m ->
  exists s n,
    n = run isLabelChar (drop s text)
    /\ (i <= s)%nat /\ (1 <= n)%nat
    /\ m_end m = (s + n)%nat
    /\ capture (m_caps m) 2 = Some (s, (s + n)%nat).
Proof.
  unfold matchAt. simpl. intros Hm.
  apply rmatch_cont in Hm as (s & caps & Hs & Hk).
  rewrite (backoff_total
             (fun j => mkMatch i j ((2%nat, (s, j)) :: (1%nat, (i, s)) :: caps)))
    in Hk.
  destruct (Nat.ltb_spec (run isLabelChar (drop s text)) 1); [done|].
  injection Hk as <-. eexists s, _. repeat split; [lia|done].
Qed.

Lemma symbolOf_label prefix docUri row text i m :
  matchAt (Seq (Group 1 prefix) (Group 2 LabelRegEx)) text i = Some m ->
  exists s sym,
    symbolOf docUri row text m
    = Some (sym, mkLocation docUri
                   (mkRange (mkPosition row s)
                            (mkPosition row (s + length sym))))
    /\ sym = take (length sym) (drop s text)
    /\ sym <> []
    /\ Forall (fun c => isLabelChar c = true) sym
    /\ (forall c, text !! (s + length sym)%nat = Some c -> isLabelChar c = false).
Proof.
  intros (s & n & Hn & _ & Hpos & _ & Hcap)%matchAt_label.
  assert (length (take n (drop s text)) = n) as Hlen.
  { rewrite length_take. pose proof (run_le isLabelChar (drop s text)). lia. }
  exists s, (take n (drop s text)). unfold symbolOf, slice. rewrite Hcap, Hlen.
  replace (s + n - s)%nat with n by lia. repeat split.
  - intros Hnil. rewrite Hnil in Hlen. simpl in Hlen. lia.
  - rewrite Hn. apply run_Forall.
  - intros c Hc. apply (run_maximal isLabelChar (drop s text)).
    by rewrite <- Hn, lookup_drop.
Qed.

Lemma scanRows_hit regex docUri row0 rest hit :
  hit ∈ scanRows regex docUri row0 rest ->
  exists row text m,
    rest !! row = Some text
    /\ m ∈ matchAll regex text
    /\ symbolOf docUri (row0 + row) text m = Some hit.
Proof.
  revert row0. induction rest as [|text rest IH]; intros row0; simpl.
  - by intros ?%elem_of_nil.
  - intros [Hin|Hin]%elem_of_app.
    + apply list_elem_of_omap in Hin as (m & Hm & Hsym).
      exists 0%nat, text, m. by rewrite Nat.add_0_r.
    + apply IH in Hin as (row & text' & m & Hrow & Hm & Hsym).
      exists (S row), text', m. by rewrite Nat.add_succ_r.
Qed.

(** A hit of either scanner is a maximal non-empty run of label characters
    of some line, with the location of exactly that run. *)
Lemma scan_label prefix textDoc sym loc :
  (sym, loc) ∈ scan (Seq (Group 1 prefix) (Group 2 LabelRegEx)) textDoc ->
  sym <> []
  /\ Forall (fun c => isLabelChar c = true) sym
  /\ exists row text s,
       lines textDoc !! row = Some text
       /\ take (length sym) (drop s text) = sym
       /\ (forall c, text !! (s + length sym)%nat = Some c -> isLabelChar c = false)
       /\ loc = mkLocation (uri textDoc)
                  (mkRange (mkPosition row s) (mkPosition row (s + length sym))).
Proof.
  intros (row & text & m & Hrow & Hm & Hsym)%scanRows_hit.
  apply matchAllFrom_matchAt in Hm as (_ & _ & Hat).
  destruct (symbolOf_label prefix (uri textDoc) (0 + row) text _ m Hat)
    as (s & sym' & Hsym' & Htake & Hne & Hall & Hmax).
  rewrite Hsym' in Hsym. injection Hsym as <- <-.
  repeat split; [done|done|]. by exists row, text, s.
Qed.

Lemma scan_one_line regex docUri path text :
  scan regex (mkTextDocument docUri path [text])
  = omap (symbolOf docUri 0 text) (matchAll regex text).
Proof. unfold scan. simpl. by rewrite app_nil_r. Qed.

Lemma matchAt_ref_link sym :
  (1 <= length sym)%nat ->
  Forall (fun c => isLabelChar c = true) sym ->
  matchAt refRegex (js "](" ++ sym) 0
  = Some (mkMatch 0 (2 + length sym)
            [(2%nat, (2%nat, (2 + length sym)%nat)); (1%nat, (0%nat, 2%nat))]).
Proof.
  intros Hlen Hall. change (js "](") with [93; 40].
  unfold matchAt, refRegex, LabelRegEx, Plus, lit.
  change (js "{numref}`") with [123; 110; 117; 109; 114; 101; 102; 125; 96].
  change (js "](") with [93; 40].
  cbn. rewrite backoff_total, drop_0, (run_all _ _ Hall).
  destruct (Nat.ltb_spec (length sym) 1); [lia|done].
Qed.

Lemma matchAt_def_section sym :
  (1 <= length sym)%nat ->
  Forall (fun c => isLabelChar c = true) sym ->
  matchAt defRegex (js "{#" ++ sym) 0
  = Some (mkMatch 0 (2 + length sym)
            [(2%nat, (2%nat, (2 + length sym)%nat)); (1%nat, (0%nat, 2%nat))]).
Proof.
  intros Hlen Hall. change (js "{#") with [123; 35].
  unfold matchAt, defRegex, SecStartRegEx, LabelRegEx, Plus, Star, lit.
  change (js "{#") with [123; 35].
  cbn. rewrite backoff_total, drop_0, (run_all _ _ Hall).
  destruct (Nat.ltb_spec (length sym) 1); [lia|done].
Qed.

(** Every non-empty string of label characters is captured: by the
    reference scanner after [](] and by the definition scanner after [{#]. *)
Lemma scan_accepts docUri path sym :
  sym <> [] ->
  Forall (fun c => isLabelChar c = true) sym ->
  (scan refRegex (mkTextDocument docUri path [js "](" ++ sym])).*1 = [sym]
  /\ (scan defRegex (mkTextDocument docUri path [js "{#" ++ sym])).*1 = [sym].
Proof.
  intros Hne Hall.
  assert (1 <= length sym)%nat as Hlen by (destruct sym; [done|simpl; lia]).
  assert (take (length sym) sym = sym) as Htake by by apply take_ge.
  assert (forall p, length p = 2%nat ->
            slice (p ++ sym) 2 (2 + length sym) = sym) as Hslice.
  { intros p Hp. unfold slice. rewrite drop_app_length' by done.
    replace (2 + length sym - 2)%nat with (length sym) by lia. done. }
  split; rewrite scan_one_line.
  - rewrite (matchAll_whole_line _ _ _ (matchAt_ref_link sym Hlen Hall)).
    + unfold symbolOf. cbn [omap list_omap capture m_caps Nat.eqb].
      by rewrite Hslice.
    + cbn [m_end]. by rewrite length_app.
    + done.
    + unfold matchAt, refRegex, lit. cbn [rmatch].
      by rewrite drop_all.
  - rewrite (matchAll_whole_line _ _ _ (matchAt_def_section sym Hlen Hall)).
    + unfold symbolOf. cbn [omap list_omap capture m_caps Nat.eqb].
      by rewrite Hslice.
    + cbn [m_end]. by rewrite length_app.
    + done.
    + unfold matchAt, defRegex, SecStartRegEx, FigureMdRegEx, NameRegEx.
      cbn [rmatch]. rewrite length_app. done.
Qed.

Lemma isLabelChar_alphabet c :
  isLabelChar c = true <-> c ∈ labelAlphabet.
Proof.
  destruct (N.lt_ge_cases c 128) as [Hsmall|Hlarge].
  - assert (forallb (fun n => Bool.eqb (isLabelChar (N.of_nat n))
                                (bool_decide (N.of_nat n ∈ labelAlphabet)))
                    (seq 0 128) = true) as Htable by (vm_compute; reflexivity).
    rewrite forallb_forall in Htable.
    specialize (Htable (N.to_nat c)). rewrite N2Nat.id in Htable.
    rewrite in_seq in Htable. specialize (Htable ltac:(lia)).
    apply Bool.eqb_prop in Htable. rewrite Htable. apply bool_decide_eq_true.
  - split.
    + unfold isLabelChar, isWord, oneOf, between.
      change (js ":+-.,@") with [58; 43; 45; 46; 44; 64].
      cbn [existsb].
      repeat match goal with
             | |- context [N.leb ?a ?b] => destruct (N.leb_spec a b); try lia
             | |- context [N.eqb ?a ?b] => destruct (N.eqb_spec a b); try lia
             end; done.
    + intros Hin.
      assert (Forall (fun d => d < 128) labelAlphabet) as Hall
        by (refine (bool_decide_unpack _ _); vm_compute; reflexivity).
      rewrite Forall_forall in Hall. specialize (Hall _ Hin). lia.
Qed.

(** The identifiers that the scanners capture are exactly the non-empty
    strings over the alphabet of [LabelRegEx], underscore included. *)
Theorem captured_identifiers sym :
  ((exists textDoc loc, (sym, loc) ∈ scan defRegex textDoc)
   <-> sym <> [] /\ Forall (fun c => c ∈ labelAlphabet) sym)
  /\ ((exists textDoc loc, (sym, loc) ∈ scan refRegex textDoc)
      <-> sym <> [] /\ Forall (fun c => c ∈ labelAlphabet) sym).
Proof.
  assert (Forall (fun c => c ∈ labelAlphabet) sym
          <-> Forall (fun c => isLabelChar c = true) sym) as Halpha.
  { rewrite !Forall_forall.
    split; intros Hall c Hc; apply isLabelChar_alphabet; auto. }
  rewrite Halpha. split; split.
  - intros (textDoc & loc & Hin). apply scan_label in Hin. tauto.
  - intros [Hne Hall].
    destruct (scan_accepts [] [] sym Hne Hall) as [_ Hdef].
    exists (mkTextDocument [] [] [js "{#" ++ sym]).
    destruct (scan defRegex _) as [|[sym' loc] [|]]; try done.
    injection Hdef as ->. exists loc. by left.
  - intros (textDoc & loc & Hin). apply scan_label in Hin. tauto.
  - intros [Hne Hall].
    destruct (scan_accepts [] [] sym Hne Hall) as [Href _].
    exists (mkTextDocument [] [] [js "](" ++ sym]).
    destruct (scan refRegex _) as [|[sym' loc] [|]]; try done.
    injection Href as ->. exists loc. by left.
Qed.

Lemma matchAt_word text i m :
  matchAt LabelRegEx text i = Some m ->
  m = mkMatch i (i + run isLabelChar (drop i text)) []
  /\ (1 <= run isLabelChar (drop i text))%nat.
Proof.
  unfold matchAt. simpl. rewrite backoff_total.
  destruct (Nat.ltb_spec (run isLabelChar (drop i text)) 1); [done|].
  by intros [= <-].
Qed.

Lemma matchAt_word_None text i c :
  matchAt LabelRegEx text i = None ->
  text !! i = Some c ->
  isLabelChar c = false.
Proof.
  unfold matchAt. simpl. rewrite backoff_total.
  destruct (Nat.ltb_spec (run isLabelChar (drop i text)) 1) as [Hrun|]; [|done].
  intros _ Hc. apply (run_maximal isLabelChar (drop i text)).
  replace (run isLabelChar (drop i text)) with 0%nat by lia.
  by rewrite lookup_drop, Nat.add_0_r.
Qed.

(** A word found by the iteration does not continue a run to its left:
    the search resumes where the previous word stopped, at a character that
    is no label character. *)
Lemma matchAllFrom_word_left fuel text : forall lastIndex m,
  (lastIndex = 0%nat
   \/ forall c, text !! lastIndex = Some c -> isLabelChar c = false) ->
  m ∈ matchAllFrom fuel LabelRegEx text lastIndex ->
  forall c,
    (1 <= m_start m)%nat ->
    text !! (m_start m - 1)%nat = Some c ->
    isLabelChar c = false.
Proof.
  induction fuel as [|fuel IH]; intros lastIndex m Hinv; simpl;
    [by intros ?%elem_of_nil|].
  destruct (exec LabelRegEx text lastIndex) as [m0|] eqn:Hexec;
    [|by intros ?%elem_of_nil].
  apply exec_Some in Hexec as (Hle & _ & Hat & Hnone).
  pose proof (matchAt_word _ _ _ Hat) as [Hm0 Hrun].
  intros [->|Hin]%elem_of_cons c Hpos Hc.
  - destruct (decide (m_start m0 = lastIndex)) as [Heq|Hne].
    + destruct Hinv as [->|Hinv]; [lia|].
      destruct (lookup_lt_is_Some_2 (drop (m_start m0) text) 0) as [d Hd].
      { pose proof (run_le isLabelChar (drop (m_start m0) text)). lia. }
      assert (isLabelChar d = true) as Hlabel
        by (apply (run_lookup isLabelChar (drop (m_start m0) text) 0%nat); [lia|done]).
      rewrite lookup_drop, Nat.add_0_r, Heq in Hd.
      apply Hinv in Hd. congruence.
    + apply (matchAt_word_None text (m_start m0 - 1)); [|done].
      apply Hnone. lia.
  - apply (IH (resumeAt m0) m); [|done..]. right. intros d Hd.
    apply (run_maximal isLabelChar (drop (m_start m0) text)).
    rewrite lookup_drop. rewrite <- Hd. f_equal.
    unfold resumeAt. rewrite Hm0. simpl.
    destruct (Nat.eqb_spec (m_start m0 + run isLabelChar (drop (m_start m0) text))
                (m_start m0)); lia.
Qed.

(** The word pattern [new RegExp(LabelRegEx)] matches maximal non-empty runs
    of label characters: a match cannot be extended to the right, nor to the
    left. *)
Theorem word_pattern_runs text m :
  m ∈ matchAll LabelRegEx text ->
  let word := slice text (m_start m) (m_end m) in
  word <> []
  /\ Forall (fun c => c ∈ labelAlphabet) word
  /\ (forall c, text !! m_end m = Some c -> c ∉ labelAlphabet)
  /\ (forall c,
        (1 <= m_start m)%nat ->
        text !! (m_start m - 1)%nat = Some c ->
        c ∉ labelAlphabet).
Proof.
  intros Hin. split; [|split; [|split]].
  - apply matchAllFrom_matchAt in Hin as (_ & _ & Hat).
    apply matchAt_word in Hat as [Hm Hrun]. rewrite Hm. unfold slice. simpl.
    intros Hnil%(f_equal length). rewrite length_take, length_drop in Hnil.
    pose proof (run_le isLabelChar (drop (m_start m) text)) as Hle.
    rewrite length_drop in Hle. simpl in Hnil. lia.
  - apply matchAllFrom_matchAt in Hin as (_ & _ & Hat).
    apply matchAt_word in Hat as [Hm Hrun]. rewrite Hm. unfold slice. simpl.
    replace (m_start m + run isLabelChar (drop (m_start m) text) - m_start m)%nat
      with (run isLabelChar (drop (m_start m) text)) by lia.
    eapply Forall_impl; [apply run_Forall|]. intros c. apply isLabelChar_alphabet.
  - apply matchAllFrom_matchAt in Hin as (_ & _ & Hat).
    apply matchAt_word in Hat as [Hm Hrun]. rewrite Hm. simpl.
    intros c Hc Hlabel%isLabelChar_alphabet.
    rewrite <- lookup_drop in Hc. apply run_maximal in Hc. congruence.
  - intros c Hpos Hc Hlabel%isLabelChar_alphabet.
    assert (isLabelChar c = false); [|congruence].
    by apply (matchAllFrom_word_left _ text 0 m (or_introl eq_refl) Hin).
Qed.

Lemma word_pattern_runs_witness :
  slice (js "ab cd ef") 3 5 <> []
  /\ Forall (fun c => c ∈ labelAlphabet) (slice (js "ab cd ef") 3 5)
  /\ (forall c, js "ab cd ef" !! 5%nat = Some c -> c ∉ labelAlphabet)
  /\ (forall c,
        (1 <= 3)%nat ->
        js "ab cd ef" !! (3 - 1)%nat = Some c ->
        c ∉ labelAlphabet).
Proof.
  apply (word_pattern_runs (js "ab cd ef") (mkMatch 3 5 [])).
  replace (matchAll LabelRegEx (js "ab cd ef"))
    with [mkMatch 0 2 []; mkMatch 3 5 []; mkMatch 6 8 []]
    by (vm_compute; reflexivity).
  right. by left.
Defined.

Lemma matchAt_def_anchored text i :
  i <> 0%nat -> matchAt defRegex text i = None.
Proof. destruct i; [done|]. intros _. reflexivity. Qed.

(** Every definition pattern is anchored at the start of the line, so a line
    yields at most one definition. *)
Theorem one_definition_per_line text :
  (length (matchAll defRegex text) <= 1)%nat.
Proof.
  unfold matchAll. simpl.
  destruct (exec defRegex text 0) as [m|] eqn:Hm; simpl; [|lia].
  apply exec_Some in Hm as (_ & Hend & _).
  rewrite matchAllFrom_miss; [simpl; lia|].
  intros i Hi. apply matchAt_def_anchored.
  pose proof (resumeAt_gt m ltac:(lia)). lia.
Qed.

(** ** Single-document indexes in terms of the scan *)

Lemma occurrences_snoc X hits h :
  occurrences X (hits ++ [h])
  = occurrences X hits ++ (if decide (h.1 = X) then [h.2] else []).
Proof.
  unfold occurrences. rewrite filter_app, fmap_app. f_equal.
  rewrite filter_cons, filter_nil. by case_decide.
Qed.

Lemma occurrences_nil_iff X hits :
  occurrences X hits = [] <-> X ∉ hits.*1.
Proof.
  unfold occurrences. induction hits as [|h hits IH]; simpl.
  - split; [intros _; apply not_elem_of_nil | done].
  - rewrite filter_cons, not_elem_of_cons. case_decide; simpl.
    + split; [done | intros [? _]; congruence].
    + rewrite IH. split; [intros ?; split; [congruence|done] | by intros [_ ?]].
Qed.

Lemma foldl_snoc {A B} (f : A -> B -> A) a l x :
  foldl f a (l ++ [x]) = f (foldl f a l) x.
Proof. by rewrite foldl_app. Qed.

(** Definitions: every symbol but [__proto__] maps to its last scanned
    location; [__proto__] never becomes an entry. *)
Lemma foldl_defStep_lookup hits X :
  foldl defStep ∅ hits !! X
  = if decide (X = JSObject.protoKey) then None else last (occurrences X hits).
Proof.
  induction hits as [|h hits IH] using rev_ind.
  - simpl. rewrite lookup_empty. by case_decide.
  - rewrite foldl_snoc, occurrences_snoc. unfold defStep at 1, JSObject.assign.
    case_bool_decide as Hp.
    + rewrite IH. case_decide as HX; [done|].
      case_decide as Hh; [congruence|]. by rewrite app_nil_r.
    + destruct (decide (h.1 = X)) as [Heq|Hne].
      * rewrite Heq in *. rewrite lookup_insert_eq.
        case_decide; [done|]. by rewrite last_snoc.
      * rewrite lookup_insert_ne, IH by done. by rewrite app_nil_r.
Qed.

Lemma foldl_refStep_Return hits :
  Forall (fun h => JSObject.inherited h.1 = false) hits ->
  exists m, foldl refStep (Return ∅) hits = Return m /\ refIndex hits m.
Proof.
  induction hits as [|h hits IH] using rev_ind; intros Hall.
  - exists ∅. split; [done|]. intros X. by rewrite lookup_empty.
  - apply Forall_app in Hall as [Hhits Hh]. apply Forall_inv in Hh.
    simpl in Hh. destruct (IH Hhits) as (m & Hm & Hidx).
    rewrite foldl_snoc, Hm. unfold refStep; simpl.
    destruct (m !! h.1) as [locs|] eqn:Hlk.
    + eexists; split; [done|]. intros X. rewrite occurrences_snoc.
      destruct (decide (h.1 = X)) as [<-|Hne].
      * rewrite lookup_insert_eq. rewrite Hidx in Hlk.
        destruct (occurrences h.1 hits); [done|]. by injection Hlk as <-.
      * rewrite lookup_insert_ne, Hidx by done. by rewrite app_nil_r.
    + rewrite Hh. eexists; split; [done|]. intros X. rewrite occurrences_snoc.
      destruct (decide (h.1 = X)) as [<-|Hne].
      * rewrite lookup_insert_eq. rewrite Hidx in Hlk.
        by destruct (occurrences h.1 hits).
      * rewrite lookup_insert_ne, Hidx by done. by rewrite app_nil_r.
Qed.

Lemma foldl_refStep_inherited hits :
  Exists (fun h => JSObject.inherited h.1 = true) hits ->
  foldl refStep (Return ∅) hits = Throw TypeError.
Proof.
  induction hits as [|h hits IH] using rev_ind; intros Hex.
  - by apply Exists_nil in Hex.
  - rewrite foldl_snoc. apply Exists_app in Hex as [Hex|Hex].
    + by rewrite IH.
    + apply Exists_cons in Hex as [Hh|Hex]; [|by apply Exists_nil in Hex].
      destruct (decide (Exists (fun h => JSObject.inherited h.1 = true) hits))
        as [Hex'|Hnone]; [by rewrite IH|].
      apply not_Exists_Forall in Hnone; [|intros ?; apply _].
      assert (Forall (fun h => JSObject.inherited h.1 = false) hits) as Hall.
      { eapply Forall_impl; [exact Hnone|]. simpl. intros x Hx.
        by destruct (JSObject.inherited x.1). }
      destruct (foldl_refStep_Return _ Hall) as (m & -> & Hidx).
      unfold refStep; simpl. rewrite Hidx, Hh.
      assert (occurrences h.1 hits = []) as ->; [|done].
      apply occurrences_nil_iff. intros Hin.
      apply list_elem_of_fmap in Hin as (h' & Heq & Hin).
      rewrite Forall_forall in Hall. specialize (Hall _ Hin). congruence.
Qed.

Lemma queryReferenceLocations_Return textDoc m :
  queryReferenceLocations textDoc = Return m ->
  refIndex (scan refRegex textDoc) m.
Proof.
  unfold queryReferenceLocations. intros Hq.
  destruct (decide (Exists (fun h => JSObject.inherited h.1 = true)
                           (scan refRegex textDoc))) as [Hex|Hnone].
  - by rewrite foldl_refStep_inherited in Hq.
  - apply not_Exists_Forall in Hnone; [|intros ?; apply _].
    assert (Forall (fun h => JSObject.inherited h.1 = false)
                   (scan refRegex textDoc)) as Hall.
    { eapply Forall_impl; [exact Hnone|]. simpl. intros x Hx.
      by destruct (JSObject.inherited x.1). }
    destruct (foldl_refStep_Return _ Hall) as (m' & Hm' & Hidx).
    rewrite Hm' in Hq. by injection Hq as <-.
Qed.

(** The definition index of a document: every identifier but [__proto__] is
    bound to its last scanned location, and is bound exactly when it was
    scanned; [__proto__] is never bound. *)
Theorem queryCrossRefDefLocations_index textDoc X :
  queryCrossRefDefLocations textDoc !! JSObject.protoKey = None
  /\ (X <> JSObject.protoKey ->
      queryCrossRefDefLocations textDoc !! X
      = last (occurrences X (scan defRegex textDoc))
      /\ (is_Some (queryCrossRefDefLocations textDoc !! X)
          <-> X ∈ (scan defRegex textDoc).*1)).
Proof.
  unfold queryCrossRefDefLocations. rewrite !foldl_defStep_lookup.
  split; [by case_decide|]. intros HX. case_decide; [done|]. split; [done|].
  rewrite <- not_eq_None_Some, last_None, occurrences_nil_iff.
  split; [apply dec_stable|auto].
Qed.

(** The reference index of a document: the scanner throws when a scanned
    identifier names a property inherited from [Object.prototype]; otherwise
    it binds every scanned identifier to all its locations in scan order, and
    nothing else. *)
Theorem queryReferenceLocations_index textDoc :
  let hits := scan refRegex textDoc in
  if existsb (fun h => JSObject.inherited h.1) hits
  then queryReferenceLocations textDoc = Throw TypeError
  else exists m,
      queryReferenceLocations textDoc = Return m
      /\ forall X, m !! X = match occurrences X hits with
                            | [] => None
                            | locs => Some locs
                            end.
Proof.
  intros hits. unfold queryReferenceLocations. fold hits.
  destruct (existsb _ hits) eqn:Hex.
  - apply foldl_refStep_inherited. apply Exists_exists.
    apply existsb_exists in Hex as (h & Hin & Hh).
    exists h. split; [by apply list_elem_of_In|done].
  - apply foldl_refStep_Return. apply Forall_forall. intros h Hin.
    destruct (JSObject.inherited h.1) eqn:Hh; [|done].
    assert (existsb (fun h => JSObject.inherited h.1) hits = true); [|congruence].
    apply existsb_exists. exists h. split; [by apply list_elem_of_In|done].
Qed.

(** ** Claims about one document *)

(** C10: every key of the reference map that [queryReferenceLocations]
    returns for a document is bound to a non-empty sequence of locations. *)
Theorem queryReferenceLocations_nonempty textDoc m X locs :
  queryReferenceLocations textDoc = Return m ->
  m !! X = Some locs ->
  locs <> [].
Proof.
  intros Hq Hlk. apply queryReferenceLocations_Return in Hq.
  rewrite (Hq X) in Hlk. destruct (occurrences X _); [done|].
  by injection Hlk as <-.
Qed.

Lemma queryReferenceLocations_nonempty_witness :
  exists m locs,
    queryReferenceLocations Examples.docA = Return m
    /\ m !! js "X" = Some locs /\ length locs = 2%nat /\ locs <> [].
Proof.
  eexists _, _. split; [vm_compute; reflexivity|].
  split; [vm_compute; reflexivity|]. split; [reflexivity|].
  eapply (queryReferenceLocations_nonempty Examples.docA _ (js "X"));
    vm_compute; reflexivity.
Defined.

(** C5: [queryCrossRefDefLocations] should hold one entry for every
    identifier matched by a definition pattern.  On a document whose only
    line is [{#__proto__}] the scanner matches the identifier [__proto__]
    and the returned map has no entry at all. *)
Theorem queryCrossRefDefLocations_drops_proto :
  (scan defRegex Examples.docProto).*1 = [js "__proto__"]
  /\ queryCrossRefDefLocations Examples.docProto = ∅.
Proof. split; vm_compute; reflexivity. Qed.

(** C6: [queryReferenceLocations] should return an entry for every
    identifier matched by a reference pattern.  On a document whose only
    line is [[the class](constructor)] the scanner matches the identifier
    [constructor] and the function throws instead of returning a map. *)
Theorem queryReferenceLocations_throws_on_constructor :
  (scan refRegex Examples.docConstructor).*1 = [js "constructor"]
  /\ queryReferenceLocations Examples.docConstructor = Throw TypeError.
Proof. split; vm_compute; reflexivity. Qed.

(** C3: identifiers should be built from [A-Z a-z 0-9 - : + , . @] only.
    The underscore is in the class of [LabelRegEx]: the definition scanner,
    the reference scanner and the word pattern all capture [a_b]. *)
Theorem LabelRegEx_accepts_underscore :
  isLabelChar 95 = true
  /\ (scan defRegex Examples.docUnderscore).*1 = [js "a_b"]
  /\ (scan refRegex Examples.docUnderscore).*1 = [js "a_b"]
  /\ omap (fun m => Some (slice (js "a_b") (m_start m) (m_end m)))
          (matchAll LabelRegEx (js "a_b")) = [js "a_b"].
Proof. repeat split; vm_compute; reflexivity. Qed.

(** ** Merging definitions across the files of a project *)

Section TwoFiles.
Context {PM : PathModule}.
Variables (w : World) (curDoc : TextDocument) (root fa fb : jsstring).
Variables (A B : TextDocument).
Hypothesis fair : fairOrder w.
Hypothesis Hroot : getSphinxRoot w (path_dirname (fileName curDoc)) = Some root.
Hypothesis Hnonempty : root <> [].
Hypothesis Hfiles : findMarkdownFiles w root = Return [fa; fb].
Hypothesis HA : openTextDocument w fa = Return A.
Hypothesis HB : openTextDocument w fb = Return B.

Lemma resumeOrder_two :
  resumeOrder w [fa; fb] = [fa; fb] \/ resumeOrder w [fa; fb] = [fb; fa].
Proof. apply Permutation_length_2_inv. symmetry. apply fair. Qed.

Lemma queryAllDefLocations_two :
  queryAllDefLocations w curDoc
  = Return (if decide (resumeOrder w [fa; fb] = [fa; fb])
            then queryCrossRefDefLocations B ∪ queryCrossRefDefLocations A
            else queryCrossRefDefLocations A ∪ queryCrossRefDefLocations B).
Proof.
  unfold queryAllDefLocations. rewrite Hroot.
  destruct root as [|c r] eqn:Er; [done|]. simpl noRoot. cbv iota.
  simpl default. rewrite Hfiles. simpl.
  case_decide as Hord.
  - rewrite Hord. simpl. rewrite HA; simpl. rewrite HB; simpl.
    unfold JSObject.spread. by rewrite (right_id_L ∅ (∪)).
  - destruct resumeOrder_two as [Hord'|Hord']; [done|].
    rewrite Hord'. simpl. rewrite HB; simpl. rewrite HA; simpl.
    unfold JSObject.spread. by rewrite (right_id_L ∅ (∪)).
Qed.

End TwoFiles.

(** C7: when the two files of a project define disjoint sets of identifiers,
    the map of [queryAllDefLocations] is the union of the two per-file maps,
    in whichever order the two tasks resume. *)
Theorem queryAllDefLocations_disjoint_union
    (PM : PathModule) (w : World) (curDoc : TextDocument)
    (root fa fb : jsstring) (A B : TextDocument) :
  fairOrder w ->
  getSphinxRoot w (path_dirname (fileName curDoc)) = Some root ->
  root <> [] ->
  findMarkdownFiles w root = Return [fa; fb] ->
  openTextDocument w fa = Return A ->
  openTextDocument w fb = Return B ->
  dom (queryCrossRefDefLocations A) ## dom (queryCrossRefDefLocations B) ->
  queryAllDefLocations w curDoc
  = Return (queryCrossRefDefLocations A ∪ queryCrossRefDefLocations B).
Proof.
  intros fair Hroot Hne Hfiles HA HB Hdisj.
  rewrite (queryAllDefLocations_two w curDoc root fa fb A B) by done.
  case_decide; [|done]. f_equal. apply map_union_comm.
  apply map_disjoint_dom. by symmetry.
Qed.

(** An identifier other than [__proto__] that both files of a project
    define is bound in the merged map to exactly one location: the last one
    scanned in the file whose task resumes last. *)
Theorem queryAllDefLocations_defined_twice
    (PM : PathModule) (w : World) (curDoc : TextDocument)
    (root fa fb : jsstring) (A B : TextDocument) (X : jsstring) :
  fairOrder w ->
  getSphinxRoot w (path_dirname (fileName curDoc)) = Some root ->
  root <> [] ->
  findMarkdownFiles w root = Return [fa; fb] ->
  openTextDocument w fa = Return A ->
  openTextDocument w fb = Return B ->
  X <> JSObject.protoKey ->
  X ∈ (scan defRegex A).*1 ->
  X ∈ (scan defRegex B).*1 ->
  exists m la lb,
    queryAllDefLocations w curDoc = Return m
    /\ last (occurrences X (scan defRegex A)) = Some la
    /\ last (occurrences X (scan defRegex B)) = Some lb
    /\ (m !! X = Some la \/ m !! X = Some lb)
    /\ (resumeOrder w [fa; fb] = [fa; fb] -> m !! X = Some lb)
    /\ (resumeOrder w [fa; fb] = [fb; fa] -> m !! X = Some la).
Proof.
  intros fair Hroot Hne Hfiles HA HB HX HXA HXB.
  assert (forall textDoc,
            X ∈ (scan defRegex textDoc).*1 ->
            exists l, last (occurrences X (scan defRegex textDoc)) = Some l
                      /\ queryCrossRefDefLocations textDoc !! X = Some l)
    as Hbound.
  { intros textDoc Hin. unfold queryCrossRefDefLocations.
    rewrite foldl_defStep_lookup. case_decide; [done|].
    destruct (last (occurrences X (scan defRegex textDoc))) as [l|] eqn:Hlast;
      [by exists l|].
    by apply last_None, occurrences_nil_iff in Hlast. }
  destruct (Hbound A HXA) as (la & HlastA & HmA).
  destruct (Hbound B HXB) as (lb & HlastB & HmB).
  rewrite (queryAllDefLocations_two w curDoc root fa fb A B) by done.
  eexists _, la, lb. split; [done|]. split; [done|]. split; [done|].
  case_decide as Hord.
  - assert ((queryCrossRefDefLocations B ∪ queryCrossRefDefLocations A) !! X
            = Some lb) as Hm by by apply lookup_union_Some_l.
    split; [by right|]. split; [done|].
    intros Hord'. rewrite Hord in Hord'. injection Hord' as Heq _.
    rewrite Heq, HB in HA. injection HA as <-.
    by rewrite <- HlastA, HlastB.
  - assert ((queryCrossRefDefLocations A ∪ queryCrossRefDefLocations B) !! X
            = Some la) as Hm by by apply lookup_union_Some_l.
    split; [by left|]. split; [done|]. done.
Qed.

Lemma queryAllDefLocations_disjoint_union_witness :
  queryAllDefLocations
    (Examples.project "/p/a" Examples.defsDisjoint reverse) Examples.docA
  = Return (queryCrossRefDefLocations
              (Examples.opened Examples.defsDisjoint Examples.fileA)
            ∪ queryCrossRefDefLocations
                (Examples.opened Examples.defsDisjoint Examples.fileB)).
Proof.
  apply (queryAllDefLocations_disjoint_union Posix.posix
           (Examples.project "/p/a" Examples.defsDisjoint reverse)
           Examples.docA (js "/p/a") Examples.fileA Examples.fileB).
  - intros files. apply reverse_Permutation.
  - vm_compute; reflexivity.
  - discriminate.
  - vm_compute; reflexivity.
  - vm_compute; reflexivity.
  - vm_compute; reflexivity.
  - refine (bool_decide_unpack _ _). vm_compute; reflexivity.
Defined.

Lemma queryAllDefLocations_defined_twice_witness :
  exists m la lb,
    queryAllDefLocations
      (Examples.project "/p/a" Examples.defsClash reverse) Examples.docA
    = Return m
    /\ last (occurrences (js "intro")
               (scan defRegex (Examples.opened Examples.defsClash Examples.fileA)))
       = Some la
    /\ last (occurrences (js "intro")
               (scan defRegex (Examples.opened Examples.defsClash Examples.fileB)))
       = Some lb
    /\ la <> lb
    /\ m !! js "intro" = Some la.
Proof.
  destruct (queryAllDefLocations_defined_twice Posix.posix
              (Examples.project "/p/a" Examples.defsClash reverse)
              Examples.docA (js "/p/a") Examples.fileA Examples.fileB
              (Examples.opened Examples.defsClash Examples.fileA)
              (Examples.opened Examples.defsClash Examples.fileB)
              (js "intro"))
    as (m & la & lb & Hm & HlastA & HlastB & _ & _ & Hlast).
  - intros files. apply reverse_Permutation.
  - vm_compute; reflexivity.
  - discriminate.
  - vm_compute; reflexivity.
  - vm_compute; reflexivity.
  - vm_compute; reflexivity.
  - intros Heq. vm_compute in Heq. discriminate.
  - refine (bool_decide_unpack _ _). vm_compute; reflexivity.
  - refine (bool_decide_unpack _ _). vm_compute; reflexivity.
  - exists m, la, lb. split; [exact Hm|]. split; [exact HlastA|].
    split; [exact HlastB|]. split.
    + vm_compute in HlastA, HlastB. congruence.
    + apply Hlast. reflexivity.
Defined.

(** C8: an identifier defined in two files of a project should be bound in
    the merged map to one of its two locations, never be absent.  With
    [{#__proto__}] in [A.md] and in [B.md] the scanner captures [__proto__]
    in both files, neither per-file map has an entry for it, and the merged
    map is empty in whichever order the two tasks resume. *)
Theorem queryAllDefLocations_drops_proto_defined_twice :
  (scan defRegex (Examples.opened Examples.defsProto Examples.fileA)).*1
  = [js "__proto__"]
  /\ (scan defRegex (Examples.opened Examples.defsProto Examples.fileB)).*1
     = [js "__proto__"]
  /\ queryAllDefLocations
       (Examples.project "/p/a" Examples.defsProto (fun files => files))
       Examples.docA
     = Return ∅
  /\ queryAllDefLocations
       (Examples.project "/p/a" Examples.defsProto reverse) Examples.docA
     = Return ∅.
Proof. repeat split; vm_compute; reflexivity. Qed.

Lemma foldl_defTask_lookup `{PathModule} w order :
  Forall (fun f => exists textDoc, openTextDocument w f = Return textDoc) order ->
  exists m,
    foldl (defTask w) (Return ∅) order = Return m
    /\ forall X, m !! X = last (omap (definedIn w X) order).
Proof.
  induction order as [|f order IH] using rev_ind; intros Hopen.
  - exists ∅. split; [done|]. intros X. by rewrite lookup_empty.
  - apply Forall_app in Hopen as [Horder [[textDoc Hf] _]%Forall_cons].
    destruct (IH Horder) as (m & Hm & Hlast).
    rewrite foldl_snoc, Hm. unfold defTask; simpl. rewrite Hf; simpl.
    eexists; split; [done|]. intros X.
    unfold JSObject.spread. rewrite lookup_union, Hlast, omap_app. simpl.
    assert (definedIn w X f = queryCrossRefDefLocations textDoc !! X) as ->
      by (unfold definedIn; by rewrite Hf).
    destruct (queryCrossRefDefLocations textDoc !! X) as [loc|]; simpl.
    + rewrite last_snoc. by destruct (last _).
    + rewrite app_nil_r. by destruct (last _).
Qed.



(** ** Merging references across the files of a project *)

(** Merging the entries of one file keeps what is there and adds the rest. *)
Lemma foldl_refMergeStep_union (l : list (jsstring * list Location)) :
  forall acc : gmap jsstring (list Location),
  NoDup l.*1 ->
  Forall (fun entry => JSObject.inherited entry.1 = false) l ->
  foldl refMergeStep (Return acc) l = Return (acc ∪ list_to_map l).
Proof.
  induction l as [|[k v] l IH]; intros acc Hnd Hall; simpl.
  - by rewrite (right_id_L ∅ (∪)).
  - apply NoDup_cons in Hnd as [Hk Hnd]. apply Forall_cons in Hall as [Hkv Hall].
    simpl in Hkv. destruct (acc !! k) as [old|] eqn:Hacc.
    + rewrite IH by done. f_equal. apply map_eq. intros i.
      rewrite !lookup_union. destruct (decide (i = k)) as [->|Hne].
      * rewrite lookup_insert_eq, Hacc. by destruct (list_to_map l !! k).
      * by rewrite lookup_insert_ne.
    + rewrite Hkv, IH by done. f_equal. apply map_eq. intros i.
      rewrite !lookup_union. destruct (decide (i = k)) as [->|Hne].
      * rewrite !lookup_insert_eq, Hacc.
        by rewrite (not_elem_of_list_to_map_1 _ _ Hk).
      * by rewrite !lookup_insert_ne.
Qed.

Lemma queryReferenceLocations_own textDoc m X locs :
  queryReferenceLocations textDoc = Return m ->
  m !! X = Some locs ->
  JSObject.inherited X = false.
Proof.
  intros Hq Hlk. destruct (JSObject.inherited X) eqn:HX; [|done].
  pose proof (queryReferenceLocations_Return _ _ Hq X) as Hidx.
  rewrite Hlk in Hidx.
  assert (X ∈ (scan refRegex textDoc).*1) as Hin.
  { apply dec_stable. intros Hnot%occurrences_nil_iff. by rewrite Hnot in Hidx. }
  apply list_elem_of_fmap in Hin as (h & -> & Hin).
  unfold queryReferenceLocations in Hq.
  rewrite foldl_refStep_inherited in Hq; [done|].
  apply Exists_exists. by exists h.
Qed.

Lemma refTask_union `{PathModule} w acc f textDoc refLocs :
  openTextDocument w f = Return textDoc ->
  queryReferenceLocations textDoc = Return refLocs ->
  refTask w (Return acc) f = Return (acc ∪ refLocs).
Proof.
  intros Hopen Hq. unfold refTask. simpl. rewrite Hopen. simpl. rewrite Hq. simpl.
  rewrite foldl_refMergeStep_union.
  - by rewrite list_to_map_to_list.
  - apply NoDup_fst_map_to_list.
  - apply Forall_forall. intros [k v] Hin%elem_of_map_to_list.
    by apply (queryReferenceLocations_own textDoc refLocs k v).
Qed.

(** In a project of two files the merged reference map is the union of the
    two per-file maps in which the file whose task resumes first wins: an
    identifier referenced in both files keeps the locations of the first
    file only. *)
Theorem queryAllReferenceLocations_first_wins
    (PM : PathModule) (w : World) (curDoc : TextDocument)
    (root fa fb : jsstring) (A B : TextDocument)
    (refsA refsB : gmap jsstring (list Location)) :
  fairOrder w ->
  getSphinxRoot w (path_dirname (fileName curDoc)) = Some root ->
  root <> [] ->
  findMarkdownFiles w root = Return [fa; fb] ->
  openTextDocument w fa = Return A ->
  openTextDocument w fb = Return B ->
  queryReferenceLocations A = Return refsA ->
  queryReferenceLocations B = Return refsB ->
  queryAllReferenceLocations w curDoc
  = Return (if decide (resumeOrder w [fa; fb] = [fa; fb])
            then refsA ∪ refsB else refsB ∪ refsA).
Proof.
  intros fair Hroot Hne Hfiles HA HB HrA HrB.
  unfold queryAllReferenceLocations. rewrite Hroot.
  destruct root as [|c r] eqn:Er; [done|]. simpl noRoot. cbv iota.
  simpl default. rewrite Hfiles. cbn [mbind Outcome_bind].
  case_decide as Hord.
  - rewrite Hord. cbn [foldl].
    rewrite (refTask_union w ∅ fa A refsA), (refTask_union w _ fb B refsB) by done.
    by rewrite (left_id_L ∅ (∪)).
  - destruct (resumeOrder_two w fa fb fair) as [Hord'|Hord']; [done|].
    rewrite Hord'. cbn [foldl].
    rewrite (refTask_union w ∅ fb B refsB), (refTask_union w _ fa A refsA) by done.
    by rewrite (left_id_L ∅ (∪)).
Qed.

Lemma queryAllReferenceLocations_first_wins_witness :
  exists refsA refsB,
    queryReferenceLocations Examples.docA = Return refsA
    /\ queryReferenceLocations Examples.docB = Return refsB
    /\ queryAllReferenceLocations
         (Examples.project "/p/a" Examples.refsAB reverse) Examples.docA
       = Return (refsB ∪ refsA).
Proof.
  eexists _, _. split; [vm_compute; reflexivity|].
  split; [vm_compute; reflexivity|].
  rewrite (queryAllReferenceLocations_first_wins Posix.posix
             (Examples.project "/p/a" Examples.refsAB reverse)
             Examples.docA (js "/p/a") Examples.fileA Examples.fileB
             Examples.docA Examples.docB _ _
             (fun files => reverse_Permutation files)
             eq_refl ltac:(discriminate) eq_refl eq_refl eq_refl eq_refl eq_refl).
  reflexivity.
Defined.

(** C1: with [X] referenced twice in [A.md] and once in [B.md], the merged
    sequence for [X] should have length 3.  [queryAllReferenceLocations]
    keeps the sequence of whichever file is merged first: length 2 when the
    task of [A.md] resumes first and length 1 when that of [B.md] does. *)
Theorem queryAllReferenceLocations_drops_references :
  length (occurrences (js "X") (scan refRegex Examples.docA)) = 2%nat
  /\ length (occurrences (js "X") (scan refRegex Examples.docB)) = 1%nat
  /\ (exists m,
        queryAllReferenceLocations
          (Examples.project "/p/a" Examples.refsAB (fun files => files))
          Examples.docA = Return m
        /\ length <$> m !! js "X" = Some 2%nat)
  /\ (exists m,
        queryAllReferenceLocations
          (Examples.project "/p/a" Examples.refsAB reverse)
          Examples.docA = Return m
        /\ length <$> m !! js "X" = Some 1%nat).
Proof.
  split; [reflexivity|]. split; [reflexivity|].
  split; eexists; (split; [vm_compute; reflexivity|reflexivity]).
Qed.

(** ** Root resolution *)

Lemma ancestor_S `{PathModule} k dir :
  ancestor (S k) dir = ancestor k (path_dirname dir).
Proof. unfold ancestor. by rewrite Nat.iter_succ_r. Qed.

Lemma ancestor_fixed `{PathModule} k dir :
  path_dirname dir = dir -> ancestor k dir = dir.
Proof.
  intros Hfix. induction k as [|k IH]; [done|].
  unfold ancestor in *. simpl. by rewrite IH.
Qed.

(** C4: [getSphinxRoot] returns the nearest ancestor of the start directory,
    the start included, in which [conf.py] exists, and returns absent when
    no ancestor up to the root has one.  With [conf.py] at [/p/a] only,
    resolving from [/p/a/b/c] gives [/p/a] and resolving from [/q/x] gives
    absent. *)
Theorem getSphinxRoot_nearest_ancestor :
  (forall (PM : PathModule) (w : World) (startDir : jsstring),
     match getSphinxRoot w startDir with
     | Some root =>
         exists k, root = ancestor k startDir
                   /\ hasConf w root = true
                   /\ forall j, (j < k)%nat ->
                                hasConf w (ancestor j startDir) = false
     | None => forall k, hasConf w (ancestor k startDir) = false
     end)
  /\ getSphinxRoot (Examples.project "/p/a" [] (fun files => files))
                   (js "/p/a/b/c") = Some (js "/p/a")
  /\ getSphinxRoot (Examples.project "/p/a" [] (fun files => files))
                   (js "/q/x") = None.
Proof.
  split; [|split; vm_compute; reflexivity].
  intros PM w startDir. funelim (getSphinxRoot w startDir).
  - (* conf.py is in the directory itself *)
    exists 0%nat. repeat split; [done|]. lia.
  - (* the directory is its own parent *)
    intros k. by rewrite ancestor_fixed.
  - (* the answer for the parent is the answer *)
    destruct (getSphinxRoot w (path_dirname dirPath)) as [root|].
    + destruct H as (k & -> & Hconf & Hbelow). exists (S k).
      rewrite ancestor_S. repeat split; [done|].
      intros [|j] Hj; [done|]. rewrite ancestor_S. apply Hbelow. lia.
    + intros [|k]; [done|]. rewrite ancestor_S. apply H.
Qed.

(** ** Errors of the file system *)

Lemma Readdir_walk_ind (P : Readdir -> Prop) :
  (forall e, P (ReaddirError e)) ->
  (forall files,
     Forall (fun file => match file with
                         | File _ => True
                         | Directory _ sub => P sub
                         end) files ->
     P (Entries files)) ->
  forall content, P content.
Proof.
  intros Herr Hent. fix IH 1. intros [files|e]; [|apply Herr].
  apply Hent. induction files as [|[name|name sub] rest IHrest];
    constructor; auto.
Qed.

Lemma searchDirectory_outcome `{PathModule} content :
  forall directory markdownFiles,
    match readdirError content with
    | Some e => searchDirectory directory content markdownFiles = Throw e
    | None => exists found,
        searchDirectory directory content markdownFiles = Return found
    end.
Proof.
  induction content as [e|files IH] using Readdir_walk_ind;
    intros directory markdownFiles; [done|].
  simpl. revert markdownFiles.
  induction IH as [|file rest Hfile _ IHrest]; intros markdownFiles; simpl.
  - by eexists.
  - destruct file as [name|name sub].
    + destruct (isMarkdownFile name); apply IHrest.
    + specialize (Hfile (path_join directory name) markdownFiles).
      destruct (readdirError sub) as [e|].
      * by rewrite Hfile.
      * destruct Hfile as [found ->]. apply IHrest.
Qed.

Lemma foldl_setAdd_elem acc paths p :
  p ∈ foldl setAdd acc paths <-> p ∈ acc \/ p ∈ paths.
Proof.
  revert acc. induction paths as [|q paths IH]; intros acc; simpl.
  - rewrite elem_of_nil. tauto.
  - rewrite IH, elem_of_cons. unfold setAdd. case_bool_decide as Hq.
    + split; [tauto|]. intros [?|[->|?]]; auto.
    + rewrite elem_of_app, list_elem_of_singleton. tauto.
Qed.

Lemma foldl_setAdd_NoDup acc paths :
  NoDup acc -> NoDup (foldl setAdd acc paths).
Proof.
  revert acc. induction paths as [|q paths IH]; intros acc Hnd; simpl; [done|].
  apply IH. unfold setAdd. case_bool_decide as Hq; [done|].
  apply NoDup_app. split; [done|]. split; [|apply NoDup_singleton].
  intros x Hx ->%list_elem_of_singleton. done.
Qed.

Lemma searchDirectory_paths `{PathModule} content :
  forall directory markdownFiles,
    readdirError content = None ->
    searchDirectory directory content markdownFiles
    = Return (foldl setAdd markdownFiles (markdownPaths directory content)).
Proof.
  induction content as [e|files IH] using Readdir_walk_ind;
    intros directory markdownFiles; [done|].
  simpl. revert markdownFiles.
  induction IH as [|file rest Hfile _ IHrest]; intros markdownFiles; simpl; [done|].
  destruct file as [name|name sub].
  - intros Hok. destruct (isMarkdownFile name); simpl; by rewrite IHrest.
  - destruct (readdirError sub) eqn:Hsub; [done|]. intros Hok.
    rewrite Hfile by done. rewrite foldl_app. by apply IHrest.
Qed.

(** When every directory of the tree can be read, [findMarkdownFiles]
    returns, without repetition, exactly the paths of the entries that are no
    directories and whose name ends in [.md]. *)
Theorem findMarkdownFiles_paths (PM : PathModule) (w : World) (dirPath : jsstring) :
  readdirError (fs_readdir w dirPath) = None ->
  exists files,
    findMarkdownFiles w dirPath = Return files
    /\ NoDup files
    /\ forall p, p ∈ files <-> p ∈ markdownPaths dirPath (fs_readdir w dirPath).
Proof.
  intros Hok. unfold findMarkdownFiles. rewrite searchDirectory_paths by done.
  eexists. split; [done|]. split.
  - apply foldl_setAdd_NoDup. constructor.
  - intros p. rewrite foldl_setAdd_elem, elem_of_nil. tauto.
Qed.

Lemma findMarkdownFiles_paths_witness :
  exists files,
    findMarkdownFiles
      (Examples.project "/p/a" Examples.refsAB (fun l => l)) (js "/p/a")
    = Return files
    /\ NoDup files
    /\ forall p, p ∈ files <-> p ∈ [Examples.fileA; Examples.fileB].
Proof.
  apply (findMarkdownFiles_paths Posix.posix
           (Examples.project "/p/a" Examples.refsAB (fun l => l)) (js "/p/a")).
  reflexivity.
Defined.

Lemma getSphinxRoot_nothing `{PathModule} w dirPath :
  (forall p, doesFileExists w p = false) -> getSphinxRoot w dirPath = None.
Proof.
  intros Hno. funelim (getSphinxRoot w dirPath); [|done|auto].
  by rewrite Hno in Heq.
Qed.

Lemma foldl_defTask_Throw `{PathModule} w order e :
  foldl (defTask w) (Throw e) order = Throw e.
Proof. induction order as [|f order IH]; [done|]. apply IH. Qed.

Lemma foldl_defTask_Return `{PathModule} w order : forall acc m,
  foldl (defTask w) acc order = Return m ->
  Forall (fun f => exists textDoc, openTextDocument w f = Return textDoc) order.
Proof.
  induction order as [|f order IH]; intros acc m Hm; [constructor|].
  cbn [foldl] in Hm. destruct (defTask w acc f) as [m'|e] eqn:Ht;
    [|by rewrite foldl_defTask_Throw in Hm].
  constructor; [|by eapply IH].
  unfold defTask in Ht. destruct acc as [m0|e]; [|done]. simpl in Ht.
  destruct (openTextDocument w f) as [textDoc|e]; [by exists textDoc|done].
Qed.

Lemma foldl_defTask_error `{PathModule} w order : forall m0 e,
  foldl (defTask w) (Return m0) order = Throw e ->
  exists f, f ∈ order /\ openTextDocument w f = Throw e.
Proof.
  induction order as [|f order IH]; intros m0 e Hm; [done|].
  cbn [foldl] in Hm. destruct (defTask w (Return m0) f) as [m'|e'] eqn:Ht.
  - apply IH in Hm as (f' & Hin & Hf'). exists f'. split; [by right|done].
  - rewrite foldl_defTask_Throw in Hm. injection Hm as ->.
    exists f. split; [by left|]. unfold defTask in Ht. simpl in Ht.
    destruct (openTextDocument w f) as [textDoc|e']; [done|].
    by injection Ht as ->.
Qed.

Lemma foldl_refTask_Throw `{PathModule} w order e :
  foldl (refTask w) (Throw e) order = Throw e.
Proof. induction order as [|f order IH]; [done|]. apply IH. Qed.

Lemma refTask_Return `{PathModule} w acc f m' :
  refTask w acc f = Return m' ->
  exists m textDoc refLocs,
    acc = Return m
    /\ openTextDocument w f = Return textDoc
    /\ queryReferenceLocations textDoc = Return refLocs
    /\ m' = m ∪ refLocs.
Proof.
  intros Ht. destruct acc as [m|e]; [|done].
  destruct (openTextDocument w f) as [textDoc|e] eqn:Hf;
    [|by unfold refTask in Ht; simpl in Ht; rewrite Hf in Ht].
  destruct (queryReferenceLocations textDoc) as [refLocs|e] eqn:Hq;
    [|by unfold refTask in Ht; simpl in Ht; rewrite Hf in Ht; simpl in Ht;
         rewrite Hq in Ht].
  rewrite (refTask_union w m f textDoc refLocs) in Ht by done.
  injection Ht as <-. by exists m, textDoc, refLocs.
Qed.

Lemma foldl_refTask_Return `{PathModule} w order : forall acc m,
  foldl (refTask w) acc order = Return m ->
  Forall (fun f => exists textDoc refLocs,
            openTextDocument w f = Return textDoc
            /\ queryReferenceLocations textDoc = Return refLocs) order.
Proof.
  induction order as [|f order IH]; intros acc m Hm; [constructor|].
  cbn [foldl] in Hm. destruct (refTask w acc f) as [m'|e] eqn:Ht;
    [|by rewrite foldl_refTask_Throw in Hm].
  apply refTask_Return in Ht as (m0 & textDoc & refLocs & _ & Hf & Hq & _).
  constructor; [by exists textDoc, refLocs|]. by eapply IH.
Qed.

(** C9, as the code has it: a failed existence check counts as "does not
    exist", so root resolution returns a directory or absent whatever the
    file system answers, and absent when every check fails.  The enumeration
    of markdown files does not catch errors: when every directory of the
    tree can be read it returns, each once, exactly the paths of the entries
    that are no directories and whose name ends in [.md], and otherwise it
    raises the error of the first failed read, which a query over the
    project raises in turn.  Per-file indexing does not catch errors either:
    when one of the enumerated files cannot be opened, the definition query
    raises the error of opening one of them and the reference query raises
    an error. *)
Theorem filesystem_errors :
  (forall w filePath e,
     fs_access w filePath = Throw e -> doesFileExists w filePath = false)
  /\ (forall (PM : PathModule) w dirPath,
        (forall p, exists e, fs_access w p = Throw e) ->
        getSphinxRoot w dirPath = None)
  /\ (forall (PM : PathModule) w dirPath,
        match readdirError (fs_readdir w dirPath) with
        | Some e => findMarkdownFiles w dirPath = Throw e
        | None =>
            exists files,
              findMarkdownFiles w dirPath = Return files
              /\ NoDup files
              /\ forall p,
                   p ∈ files <-> p ∈ markdownPaths dirPath (fs_readdir w dirPath)
        end)
  /\ (forall (PM : PathModule) w curDoc e,
        noRoot (getSphinxRoot w (path_dirname (fileName curDoc))) = false ->
        findMarkdownFiles w
          (default [] (getSphinxRoot w (path_dirname (fileName curDoc))))
        = Throw e ->
        queryAllDefLocations w curDoc = Throw e
        /\ queryAllReferenceLocations w curDoc = Throw e)
  /\ (forall (PM : PathModule) w curDoc files f e,
        fairOrder w ->
        noRoot (getSphinxRoot w (path_dirname (fileName curDoc))) = false ->
        findMarkdownFiles w
          (default [] (getSphinxRoot w (path_dirname (fileName curDoc))))
        = Return files ->
        f ∈ files ->
        openTextDocument w f = Throw e ->
        (exists f' e',
           f' ∈ files
           /\ openTextDocument w f' = Throw e'
           /\ queryAllDefLocations w curDoc = Throw e')
        /\ (exists e', queryAllReferenceLocations w curDoc = Throw e')).
Proof.
  split; [|split; [|split; [|split]]].
  - intros w filePath e Hacc. unfold doesFileExists. by rewrite Hacc.
  - intros PM w dirPath Hfail. apply getSphinxRoot_nothing.
    intros p. destruct (Hfail p) as [e He]. unfold doesFileExists. by rewrite He.
  - intros PM w dirPath.
    destruct (readdirError (fs_readdir w dirPath)) as [e|] eqn:Herr.
    + pose proof (searchDirectory_outcome (fs_readdir w dirPath) dirPath [])
        as Hout. by rewrite Herr in Hout.
    + unfold findMarkdownFiles. rewrite searchDirectory_paths by done.
      eexists. split; [done|]. split.
      * apply foldl_setAdd_NoDup. constructor.
      * intros p. rewrite foldl_setAdd_elem, elem_of_nil. tauto.
  - intros PM w curDoc e Hroot Hfind.
    unfold queryAllDefLocations, queryAllReferenceLocations.
    by rewrite Hroot, Hfind.
  - intros PM w curDoc files f e fair Hroot Hfind Hf Hopen.
    assert (f ∈ resumeOrder w files) as Hf' by by rewrite (fair files).
    unfold queryAllDefLocations, queryAllReferenceLocations.
    rewrite Hroot, Hfind. cbn [mbind Outcome_bind]. split.
    + destruct (foldl (defTask w) (Return ∅) (resumeOrder w files))
        as [m|e'] eqn:Hm.
      * apply foldl_defTask_Return in Hm. rewrite Forall_forall in Hm.
        destruct (Hm f Hf') as [textDoc Hdoc]. congruence.
      * apply foldl_defTask_error in Hm as (f' & Hin & Hf'').
        exists f', e'. split; [by rewrite <- (fair files)|done].
    + destruct (foldl (refTask w) (Return ∅) (resumeOrder w files))
        as [m|e'] eqn:Hm; [|by exists e'].
      apply foldl_refTask_Return in Hm. rewrite Forall_forall in Hm.
      destruct (Hm f Hf') as (textDoc & refLocs & Hdoc & _). congruence.
Qed.

Lemma filesystem_errors_witness :
  doesFileExists Examples.nothing (js "/q/x/conf.py") = false
  /\ getSphinxRoot Examples.nothing (js "/q/x") = None
  /\ findMarkdownFiles Examples.unreadable (js "/p/a") = Throw Examples.EACCES
  /\ (exists f' e',
        f' ∈ [Examples.fileA]
        /\ openTextDocument Examples.raced f' = Throw e'
        /\ queryAllDefLocations Examples.raced Examples.docA = Throw e')
  /\ (exists e',
        queryAllReferenceLocations Examples.raced Examples.docA = Throw e').
Proof.
  destruct filesystem_errors as (Hacc & Hroot & Hfind & _ & Hfile).
  split; [|split; [|split]].
  - apply (Hacc Examples.nothing _ Examples.EACCES). reflexivity.
  - apply Hroot. intros p. by exists Examples.EACCES.
  - exact (Hfind Posix.posix Examples.unreadable (js "/p/a")).
  - apply (Hfile Posix.posix Examples.raced Examples.docA
             [Examples.fileA] Examples.fileA Examples.ENOENT).
    + intros files. reflexivity.
    + vm_compute; reflexivity.
    + vm_compute; reflexivity.
    + by left.
    + reflexivity.
Defined.

(** C9 fails as stated: in a project whose root directory can be searched
    but not listed, [conf.py] is found, the directory read fails and the
    error reaches the caller of every query; and in a project whose listed
    file cannot be opened, the error of opening it reaches the caller of
    every query. *)
Lemma filesystem_error_escapes :
  getSphinxRoot Examples.unreadable (js "/p/a") = Some (js "/p/a")
  /\ findMarkdownFiles Examples.unreadable (js "/p/a") = Throw Examples.EACCES
  /\ queryAllDefLocations Examples.unreadable Examples.docA
     = Throw Examples.EACCES
  /\ queryAllReferenceLocations Examples.unreadable Examples.docA
     = Throw Examples.EACCES
  /\ findMarkdownFiles Examples.raced (js "/p/a") = Return [Examples.fileA]
  /\ queryAllDefLocations Examples.raced Examples.docA
     = Throw Examples.ENOENT
  /\ queryAllReferenceLocations Examples.raced Examples.docA
     = Throw Examples.ENOENT.
Proof. repeat split; vm_compute; reflexivity. Qed.

(** ** Completion *)

Lemma provideCompletionItems_items `{PathModule} w document position context items :
  provideCompletionItems w document position context = Return (Some items) ->
  candidates w document = Return (Some items).
Proof.
  unfold provideCompletionItems.
  repeat case_bool_decide; [| |done];
    (destruct (lineAt document (line position)) as [text|e]; simpl; [|done]);
    by destruct (negb _).
Qed.

Lemma candidates_outcome `{PathModule} w document :
  match queryAllDefLocations w document with
  | Return m =>
      exists items,
        candidates w document = Return (Some items)
        /\ NoDup (label <$> items)
        /\ forall id, id ∈ label <$> items <-> is_Some (m !! id)
  | Throw e => candidates w document = Throw e
  end.
Proof.
  unfold candidates.
  destruct (queryAllDefLocations w document) as [m|e]; [|done].
  eexists. split; [done|].
  rewrite <- list_fmap_compose.
  assert ((label ∘ (fun id => mkCompletionItem id Constant)) <$> JSObject.keys m
          = (map_to_list m).*1) as -> by apply list_fmap_id.
  split; [apply NoDup_fst_map_to_list|].
  intros id. rewrite list_elem_of_fmap. split.
  - intros ([k v] & -> & Hin). apply elem_of_map_to_list in Hin. by eexists.
  - intros [v Hv]. exists (id, v). split; [done|].
    by apply elem_of_map_to_list.
Qed.

(** C2, as the code has it: after a backtick trigger with the caret at
    column 9 or later, the result is absent when the nine characters before
    the caret are not [{numref}`], and the definition query of the
    document's scope is run when they are; with no trigger character, or
    one that is neither a backtick nor an open parenthesis, the query is run
    whatever precedes the caret.  When the query is run and returns a map,
    candidates are returned, one per key of the map and so exactly its full
    key set; when it raises an error, so does the provider.  Candidates are
    never returned in another way. *)
Theorem provideCompletionItems_candidates
    (PM : PathModule) (w : World) (document : TextDocument)
    (position : Position) (context : CompletionContext) :
  (forall text,
     triggerCharacter context = Some (js "`") ->
     lines document !! line position = Some text ->
     (9 <= character position)%nat ->
     provideCompletionItems w document position context
     = if bool_decide (slice text (character position - 9) (character position)
                       = js "{numref}`")
       then candidates w document
       else Return None)
  /\ (triggerCharacter context <> Some (js "`") ->
      triggerCharacter context <> Some (js "(") ->
      provideCompletionItems w document position context
      = candidates w document)
  /\ (forall items,
        provideCompletionItems w document position context
        = Return (Some items) ->
        exists m,
          queryAllDefLocations w document = Return m
          /\ NoDup (label <$> items)
          /\ forall id, id ∈ label <$> items <-> is_Some (m !! id))
  /\ (forall m,
        queryAllDefLocations w document = Return m ->
        exists items,
          candidates w document = Return (Some items)
          /\ NoDup (label <$> items)
          /\ forall id, id ∈ label <$> items <-> is_Some (m !! id))
  /\ (forall e,
        queryAllDefLocations w document = Throw e ->
        candidates w document = Throw e).
Proof.
  split; [|split; [|split; [|split]]].
  - intros text Htrig Hline Hcol. unfold provideCompletionItems, lineAt.
    rewrite bool_decide_eq_true_2 by done. rewrite Hline.
    cbn [mbind Outcome_bind]. change (length (js "{numref}`")) with 9%nat.
    replace (Z.of_nat (character position) - Z.of_nat 9)%Z
      with (Z.of_nat (character position - 9)) by lia.
    rewrite substring1_drop. unfold slice.
    replace (character position - (character position - 9))%nat with 9%nat by lia.
    pose proof (startsWith_take (drop (character position - 9) text)
                  (js "{numref}`")) as Hsw.
    change (length (js "{numref}`")) with 9%nat in Hsw.
    destruct (startsWith _ (js "{numref}`")); cbn [negb].
    + rewrite bool_decide_eq_true_2; [done|]. by apply Hsw.
    + rewrite bool_decide_eq_false_2; [done|].
      intros Heq. apply Hsw in Heq. congruence.
  - intros Hbt Hpar. unfold provideCompletionItems.
    by rewrite !bool_decide_eq_false_2.
  - intros items Hitems. apply provideCompletionItems_items in Hitems.
    pose proof (candidates_outcome w document) as Hout.
    destruct (queryAllDefLocations w document) as [m|e];
      [|by rewrite Hout in Hitems].
    destruct Hout as (items' & Hcand & Hnd & Hkeys).
    rewrite Hcand in Hitems. injection Hitems as <-. by exists m.
  - intros m Hm. pose proof (candidates_outcome w document) as Hout.
    by rewrite Hm in Hout.
  - intros e He. pose proof (candidates_outcome w document) as Hout.
    by rewrite He in Hout.
Qed.

Lemma provideCompletionItems_candidates_witness :
  provideCompletionItems
    (Examples.project "/p/a" Examples.typing (fun files => files))
    Examples.docTyping (mkPosition 1 13) (mkCompletionContext (Some (js "`")))
  = Return (Some [mkCompletionItem (js "intro") Constant]).
Proof.
  rewrite (proj1 (provideCompletionItems_candidates Posix.posix
                    (Examples.project "/p/a" Examples.typing (fun files => files))
                    Examples.docTyping (mkPosition 1 13)
                    (mkCompletionContext (Some (js "`"))))
                 (js "see {numref}`") eq_refl eq_refl);
    [vm_compute; reflexivity | simpl; lia].
Defined.

(** C2 fails as stated: invoked without a trigger character, with the caret
    inside plain text, [provideCompletionItems] returns the candidates; and
    right after [{numref}`] with a backtick trigger, in a project whose root
    directory cannot be listed, it raises the error of the failed read
    instead of returning the key set. *)
Lemma provideCompletionItems_untriggered_or_failing :
  provideCompletionItems
    (Examples.project "/p/a" Examples.typing (fun files => files))
    Examples.docTyping (mkPosition 2 5) (mkCompletionContext None)
  = Return (Some [mkCompletionItem (js "intro") Constant])
  /\ slice (js "see {numref}`") 4 13 = js "{numref}`"
  /\ provideCompletionItems Examples.unreadable
       Examples.docTyping (mkPosition 1 13)
       (mkCompletionContext (Some (js "`")))
     = Throw Examples.EACCES.
Proof. repeat split; vm_compute; reflexivity. Qed.

(** The check after an open parenthesis compares
    [text.substring(character - 1, 1)] with a closing bracket: right after
    [[a](] the result is absent. *)
Lemma provideCompletionItems_after_link_label :
  provideCompletionItems
    (Examples.project "/p/a" Examples.typing (fun files => files))
    Examples.docTyping (mkPosition 3 4) (mkCompletionContext (Some (js "(")))
  = Return None.
Proof. vm_compute; reflexivity. Qed.

(** ** The scanners against the grammar *)

Lemma backoff_unfold {A} (k : nat -> option A) i min n :
  backoff k i min n
  = if Nat.ltb n min then None
    else match k (i + n)%nat with
         | Some r => Some r
         | None => match n with
                   | O => None
                   | S n' => backoff k i min n'
                   end
         end.
Proof. by destruct n. Qed.

Lemma backoff_first {A} (k : nat -> option A) i min n x :
  (min <= n)%nat -> k (i + n)%nat = Some x -> backoff k i min n = Some x.
Proof.
  intros Hmin Hk. rewrite backoff_unfold.
  destruct (Nat.ltb_spec n min); [lia|]. by rewrite Hk.
Qed.

Lemma backoff_none {A} (k : nat -> option A) i min n :
  (forall j, (i + min <= j <= i + n)%nat -> k j = None) ->
  backoff k i min n = None.
Proof.
  induction n as [|n IH]; intros Hk; rewrite backoff_unfold.
  - destruct (Nat.ltb_spec 0 min); [done|]. by rewrite Hk by lia.
  - destruct (Nat.ltb_spec (S n) min); [done|]. rewrite Hk by lia.
    destruct (Nat.ltb_spec n min) as [Hlt|Hge].
    + rewrite backoff_unfold. by destruct (Nat.ltb_spec n min); [|lia].
    + apply IH. intros j Hj. apply Hk. lia.
Qed.

Lemma run_app cls ws rest :
  Forall (fun c => cls c = true) ws ->
  run cls (ws ++ rest) = (length ws + run cls rest)%nat.
Proof. induction 1 as [|c ws Hc _ IH]; simpl; [done|]. by rewrite Hc, IH. Qed.

Lemma startsWith_lookup s l :
  startsWith s l = true -> forall k c, l !! k = Some c -> s !! k = Some c.
Proof.
  intros Hsw%startsWith_take k c Hk. rewrite <- Hsw in Hk.
  by apply lookup_take_Some in Hk as [? _].
Qed.

(** The matcher only returns what the expression recognises. *)
Lemma rmatch_sound {A} r text : forall i caps (k : nat -> Captures -> option A) x,
  groupFree r = true ->
  rmatch r text i caps k = Some x ->
  exists j, recognises r text i j /\ k j caps = Some x.
Proof.
  induction r as [|l|cls min|r1 IH1 r2 IH2|r1 IH1 r2 IH2|idx r IH];
    intros i caps k x Hgf; simpl in *.
  - destruct (Nat.eqb_spec i 0); [|done]. intros Hk. by exists i.
  - destruct (startsWith (drop i text) l) eqn:Hsw; [|done].
    intros Hk. exists (i + length l)%nat. split; [|done].
    by apply startsWith_take in Hsw.
  - intros Hb. apply backoff_cont in Hb as (j & Hj & Hk). by exists j.
  - apply andb_true_iff in Hgf as [Hgf1 Hgf2].
    intros H1. apply IH1 in H1 as (j1 & Hj1 & H2); [|done].
    apply IH2 in H2 as (j2 & Hj2 & Hk); [|done].
    exists j2. split; [by exists j1|done].
  - apply andb_true_iff in Hgf as [Hgf1 Hgf2].
    destruct (rmatch r1 text i caps k) eqn:H1.
    + intros [= <-]. apply IH1 in H1 as (j & ? & ?); [|done]. exists j. auto.
    + intros H2. apply IH2 in H2 as (j & ? & ?); [|done]. exists j. auto.
  - done.
Qed.

Lemma identifierAt_run text s sym :
  identifierAt text s sym <->
  (1 <= run isLabelChar (drop s text))%nat
  /\ sym = take (run isLabelChar (drop s text)) (drop s text).
Proof.
  split.
  - intros (Hne & Hall & Htake & Hmax).
    assert (run isLabelChar (drop s text) = length sym) as Hrun.
    { rewrite <- (take_drop (length sym) (drop s text)), Htake.
      rewrite run_app by done.
      destruct (drop (length sym) (drop s text)) as [|c rest] eqn:Hrest;
        simpl; [lia|].
      rewrite (Hmax c); [lia|].
      rewrite drop_drop in Hrest.
      apply (f_equal (fun l => l !! 0%nat)) in Hrest.
      rewrite lookup_drop, Nat.add_0_r in Hrest. by simpl in Hrest. }
    rewrite Hrun. split; [|done]. destruct sym; [done|simpl; lia].
  - intros [Hrun ->]. pose proof (run_le isLabelChar (drop s text)) as Hle.
    assert (length (take (run isLabelChar (drop s text)) (drop s text))
            = run isLabelChar (drop s text)) as Hlen
      by (rewrite length_take; lia).
    unfold identifierAt. rewrite Hlen. repeat split.
    + intros Hnil. rewrite Hnil in Hlen. simpl in Hlen. lia.
    + apply run_Forall.
    + intros c Hc. apply (run_maximal isLabelChar (drop s text)).
      by rewrite lookup_drop.
Qed.

Lemma matchAt_labelled_sound prefix text i m :
  groupFree prefix = true ->
  matchAt (Seq (Group 1 prefix) (Group 2 LabelRegEx)) text i = Some m ->
  exists s,
    recognises prefix text i s
    /\ (1 <= run isLabelChar (drop s text))%nat
    /\ m = labelMatch i s (run isLabelChar (drop s text)).
Proof.
  intros Hgf. unfold matchAt. simpl. intros Hm.
  apply rmatch_sound in Hm as (s & Hrec & Hk); [|done].
  rewrite (backoff_total
             (fun j => mkMatch i j [(2%nat, (s, j)); (1%nat, (i, s))])) in Hk.
  destruct (Nat.ltb_spec (run isLabelChar (drop s text)) 1); [done|].
  injection Hk as <-. by exists s.
Qed.

(** What follows a prefix that has matched up to [s]. *)
Lemma labelled_continue text i s :
  (1 <= run isLabelChar (drop s text))%nat ->
  rmatch LabelRegEx text s [(1%nat, (i, s))]
    (fun j caps => Some (mkMatch i j ((2%nat, (s, j)) :: caps)))
  = Some (labelMatch i s (run isLabelChar (drop s text))).
Proof.
  intros Hrun. simpl.
  rewrite (backoff_total
             (fun j => mkMatch i j [(2%nat, (s, j)); (1%nat, (i, s))])).
  by destruct (Nat.ltb_spec (run isLabelChar (drop s text)) 1); [lia|].
Qed.

Lemma symbolOf_labelMatch docUri row text i s sym :
  identifierAt text s sym ->
  symbolOf docUri row text (labelMatch i s (length sym))
  = Some (sym, located docUri row s sym).
Proof.
  intros (_ & _ & Htake & _). unfold symbolOf, labelMatch, slice, located. simpl.
  replace (s + length sym - s)%nat with (length sym) by lia. by rewrite Htake.
Qed.

(** *** References *)

Lemma matchAt_ref_iff text i m :
  matchAt refRegex text i = Some m <->
  exists t sym,
    referenceTrigger t
    /\ take (length t) (drop i text) = t
    /\ identifierAt text (i + length t) sym
    /\ m = labelMatch i (i + length t) (length sym).
Proof.
  split.
  - intros (s & Hrec & Hrun & ->)%matchAt_labelled_sound; [|done].
    assert (exists t, referenceTrigger t
                      /\ take (length t) (drop i text) = t
                      /\ s = (i + length t)%nat) as (t & Ht & Htake & ->).
    { destruct Hrec as [[Htake ->]|[Htake ->]].
      - exists (js "{numref}`"). split; [by left|done].
      - exists (js "]("). split; [by right|done]. }
    exists t, (take (run isLabelChar (drop (i + length t) text))
                    (drop (i + length t) text)).
    split; [done|]. split; [done|]. split; [by apply identifierAt_run|].
    rewrite length_take.
    pose proof (run_le isLabelChar (drop (i + length t) text)).
    by rewrite Nat.min_l by lia.
  - intros (t & sym & Ht & Htake & Hid & ->).
    apply identifierAt_run in Hid as [Hrun Hsym].
    assert (length sym = run isLabelChar (drop (i + length t) text)) as ->.
    { rewrite Hsym, length_take.
      pose proof (run_le isLabelChar (drop (i + length t) text)). lia. }
    unfold matchAt, refRegex, lit. cbn [rmatch].
    destruct Ht as [-> | ->].
    + apply startsWith_take in Htake. rewrite Htake.
      by rewrite labelled_continue.
    + assert (startsWith (drop i text) (js "{numref}`") = false) as ->.
      { destruct (drop i text) as [|c [|d rest]]; try done.
        by injection Htake as -> ->. }
      apply startsWith_take in Htake. rewrite Htake.
      by rewrite labelled_continue.
Qed.

Lemma referenceTrigger_inside t k c :
  referenceTrigger t -> t !! k = Some c ->
  (k = 0%nat /\ (c = 123 \/ c = 93))
  \/ ((0 < k)%nat /\ c <> 123 /\ c <> 93).
Proof.
  intros [-> | ->] Hk;
    repeat (destruct k as [|k]; [injection Hk as <-; naive_solver lia|]);
    done.
Qed.

(** No reference can start inside another one. *)
Lemma matchAt_ref_disjoint text i0 m0 i :
  matchAt refRegex text i0 = Some m0 ->
  (i0 < i < m_end m0)%nat ->
  matchAt refRegex text i = None.
Proof.
  intros (t0 & sym0 & Ht0 & Htake0 & Hid0 & ->)%matchAt_ref_iff Hi.
  simpl in Hi.
  destruct (matchAt refRegex text i) as [m|] eqn:Hm; [|done]. exfalso.
  apply matchAt_ref_iff in Hm as (t & sym & Ht & Htake & _ & _).
  assert (text !! i = Some 123 \/ text !! i = Some 93) as Hhead.
  { apply startsWith_take, startsWith_lookup with (k := 0%nat) (c := hd 0 t)
      in Htake; [|by destruct Ht as [-> | ->]].
    rewrite lookup_drop, Nat.add_0_r in Htake.
    destruct Ht as [-> | ->]; auto. }
  destruct (Nat.lt_ge_cases i (i0 + length t0)) as [Hin|Hout].
  - assert (exists c, t0 !! (i - i0)%nat = Some c) as [c Hc].
    { apply lookup_lt_is_Some. lia. }
    pose proof (startsWith_lookup _ _ (proj2 (startsWith_take _ _) Htake0)
                  _ _ Hc) as Hc'.
    rewrite lookup_drop in Hc'. replace (i0 + (i - i0))%nat with i in Hc' by lia.
    destruct (referenceTrigger_inside t0 _ c Ht0 Hc) as [[? _]|(_ & ? & ?)];
      [lia|]. destruct Hhead; congruence.
  - apply identifierAt_run in Hid0 as [_ Hsym0].
    assert (length sym0 = run isLabelChar (drop (i0 + length t0) text)) as Hlen.
    { rewrite Hsym0 at 1. rewrite length_take.
      pose proof (run_le isLabelChar (drop (i0 + length t0) text)). lia. }
    assert (isLabelChar 123 = false /\ isLabelChar 93 = false) as [H1 H2] by done.
    assert (forall c, text !! i = Some c -> isLabelChar c = true) as Hlab.
    { intros c Hc.
      apply (run_lookup isLabelChar (drop (i0 + length t0) text)
               (i - (i0 + length t0))); [lia|].
      rewrite lookup_drop, <- Hc. f_equal. lia. }
    destruct Hhead as [Hhead|Hhead]; apply Hlab in Hhead; congruence.
Qed.

(** The reference scanner reports every reference of a line. *)
Lemma matchAll_ref_iff text m :
  m ∈ matchAll refRegex text <->
  (m_start m <= length text)%nat /\ matchAt refRegex text (m_start m) = Some m.
Proof.
  split.
  - intros (? & ? & ?)%matchAllFrom_matchAt. split; [lia|done].
  - intros [Hlen Hat].
    destruct (matchAllFrom_complete (S (length text)) refRegex text 0
                (m_start m) m) as (m0 & Hin & [->|Hinside]);
      [lia|lia|done|done|].
    apply matchAllFrom_matchAt in Hin as (_ & _ & Hat0).
    rewrite (matchAt_ref_disjoint text _ m0 (m_start m) Hat0) in Hat; [done|lia].
Qed.

Lemma scanRows_iff regex docUri row0 rest hit :
  hit ∈ scanRows regex docUri row0 rest <->
  exists row text m,
    rest !! row = Some text
    /\ m ∈ matchAll regex text
    /\ symbolOf docUri (row0 + row) text m = Some hit.
Proof.
  split; [apply scanRows_hit|].
  revert row0. induction rest as [|text rest IH];
    intros row0 (row & text' & m & Hrow & Hm & Hsym); [done|].
  simpl. apply elem_of_app. destruct row as [|row].
  - left. injection Hrow as ->. apply list_elem_of_omap. exists m.
    by rewrite Nat.add_0_r in Hsym.
  - right. apply IH. exists row, text', m. by rewrite Nat.add_succ_r in Hsym.
Qed.

Lemma scan_refRegex_iff textDoc sym loc :
  (sym, loc) ∈ scan refRegex textDoc <->
  exists row text s,
    lines textDoc !! row = Some text
    /\ afterTrigger text s
    /\ identifierAt text s sym
    /\ loc = located (uri textDoc) row s sym.
Proof.
  unfold scan. rewrite scanRows_iff. split.
  - intros (row & text & m & Hrow & Hm & Hsym).
    apply matchAll_ref_iff in Hm as [_ Hat].
    set (i := m_start m) in Hat.
    apply matchAt_ref_iff in Hat as (t & sym' & Ht & Htake & Hid & Hm).
    rewrite Hm, (symbolOf_labelMatch _ _ _ _ _ _ Hid) in Hsym.
    injection Hsym as <- <-.
    exists row, text, (i + length t)%nat.
    split; [done|]. split; [|done].
    exists t. split; [done|]. split; [lia|].
    by replace (i + length t - length t)%nat with i by lia.
  - intros (row & text & s & Hrow & (t & Ht & Hlen & Htake) & Hid & ->).
    exists row, text, (labelMatch (s - length t) s (length sym)).
    split; [done|]. split; [|by apply symbolOf_labelMatch].
    apply matchAll_ref_iff. simpl.
    assert (s - length t <= length text)%nat as Hle.
    { destruct Hid as (Hne & _ & Hsym & _).
      destruct (Nat.le_gt_cases s (length text)); [lia|].
      rewrite drop_ge, take_nil in Hsym by lia. done. }
    split; [done|]. apply matchAt_ref_iff. exists t, sym.
    by replace (s - length t + length t)%nat with s by lia.
Qed.

(** A reference is recorded for [sym], with the location of its text, at
    exactly the places of the document where [sym] is written as a whole
    identifier right after [{numref}`] or [](]. *)
Theorem reference_sites textDoc sym loc :
  (sym, loc) ∈ scan refRegex textDoc <->
  exists row text s,
    lines textDoc !! row = Some text
    /\ afterTrigger text s
    /\ identifierAt text s sym
    /\ loc = located (uri textDoc) row s sym.
Proof. apply scan_refRegex_iff. Qed.

(** *** Definitions *)

Lemma take_add_app {A} (l : list A) a b :
  take (a + b) l = take a l ++ take b (drop a l).
Proof.
  revert l. induction a as [|a IH]; intros l; simpl; [done|].
  destruct l as [|x l]; simpl; [by rewrite take_nil|]. by rewrite IH.
Qed.

Lemma run_take_Forall cls k s :
  (k <= run cls s)%nat -> Forall (fun c => cls c = true) (take k s).
Proof.
  intros Hk. replace k with (Nat.min k (run cls s)) by lia.
  rewrite <- take_take. apply Forall_take, run_Forall.
Qed.

Lemma label_not_space c : isLabelChar c = true -> isSpace c = false.
Proof.
  intros Hc%isLabelChar_alphabet.
  assert (Forall (fun c => isSpace c = false) labelAlphabet) as Hall
    by (refine (bool_decide_unpack _ _); vm_compute; reflexivity).
  rewrite Forall_forall in Hall. auto.
Qed.

Lemma fence_chars c : oneOf (js "`:") c = true -> c = 96 \/ c = 58.
Proof.
  unfold oneOf. change (js "`:") with [96; 58]. simpl.
  destruct (N.eqb_spec c 96); [auto|]. destruct (N.eqb_spec c 58); [auto|done].
Qed.

Lemma recognises_sec text s :
  recognises SecStartRegEx text 0 s ->
  exists ws, Forall (fun c => isSpace c = true) ws /\ take s text = ws ++ js "{#".
Proof.
  intros (k1 & [_ ->] & k2 & Hk2 & Hlit & ->). simpl in Hk2.
  rewrite drop_0 in Hk2. exists (take k2 text). split; [apply run_take_Forall; lia|].
  by rewrite take_add_app, Hlit.
Qed.

Lemma recognises_fig text s :
  recognises FigureMdRegEx text 0 s ->
  exists fence ws,
    (3 <= length fence)%nat
    /\ Forall (fun c => oneOf (js "`:") c = true) fence
    /\ Forall (fun c => isSpace c = true) ws
    /\ take s text = fence ++ js "{figure-md}" ++ ws.
Proof.
  intros (k1 & [_ ->] & k2 & Hk2 & k3 & [Hlit ->] & Hs).
  change (length (js "{figure-md}")) with 11%nat in *.
  simpl in Hk2, Hs. rewrite drop_0 in Hk2.
  pose proof (run_le (oneOf (js "`:")) text) as Hle.
  exists (take k2 text), (take (s - (k2 + 11)) (drop (k2 + 11) text)).
  split; [rewrite length_take; lia|].
  split; [apply run_take_Forall; lia|].
  split; [apply run_take_Forall; lia|].
  replace s with (k2 + 11 + (s - (k2 + 11)))%nat at 1 by lia.
  rewrite take_add_app, take_add_app, Hlit.
  by rewrite <- app_assoc.
Qed.

Lemma recognises_name text s :
  recognises NameRegEx text 0 s ->
  exists ws1 ws2,
    Forall (fun c => isSpace c = true) ws1
    /\ Forall (fun c => isSpace c = true) ws2
    /\ take s text = ws1 ++ js ":name:" ++ ws2.
Proof.
  intros (k1 & [_ ->] & k2 & Hk2 & k3 & [Hlit ->] & Hs).
  change (length (js ":name:")) with 6%nat in *.
  simpl in Hk2, Hs. rewrite drop_0 in Hk2.
  exists (take k2 text), (take (s - (k2 + 6)) (drop (k2 + 6) text)).
  split; [apply run_take_Forall; lia|].
  split; [apply run_take_Forall; lia|].
  replace s with (k2 + 6 + (s - (k2 + 6)))%nat at 1 by lia.
  rewrite take_add_app, take_add_app, Hlit.
  by rewrite <- app_assoc.
Qed.

Lemma matchAt_def_sound text m :
  matchAt defRegex text 0 = Some m ->
  exists s sym,
    definitionPrefix (take s text)
    /\ identifierAt text s sym
    /\ m = labelMatch 0 s (length sym).
Proof.
  intros (s & Hrec & Hrun & ->)%matchAt_labelled_sound; [|done].
  exists s, (take (run isLabelChar (drop s text)) (drop s text)).
  split; [|split; [by apply identifierAt_run|]].
  - destruct Hrec as [Hrec|[Hrec|Hrec]].
    + left. by apply recognises_sec.
    + right; left. by apply recognises_fig.
    + right; right. by apply recognises_name.
  - rewrite length_take. pose proof (run_le isLabelChar (drop s text)).
    by rewrite Nat.min_l by lia.
Qed.

Lemma space_chars c :
  isSpace c = true -> c <> 123 /\ c <> 58 /\ oneOf (js "`:") c = false.
Proof.
  intros Hc. repeat split.
  - by intros ->.
  - by intros ->.
  - destruct (oneOf (js "`:") c) eqn:Hf; [|done].
    by apply fence_chars in Hf as [-> | ->].
Qed.

Lemma run_stop cls s :
  (forall c, head s = Some c -> cls c = false) -> run cls s = 0%nat.
Proof. destruct s as [|c s]; simpl; [done|]. intros Hc. by rewrite Hc. Qed.

Lemma startsWith_head s c l :
  startsWith s (c :: l) = true -> head s = Some c.
Proof.
  destruct s as [|d s]; simpl; [done|].
  intros [->%N.eqb_eq _]%andb_true_iff. done.
Qed.

Section DefinitionPrefixes.
Context {A : Type} (k : nat -> Captures -> option A) (caps : Captures).
Variables (tail : jsstring) (x : A).
Hypothesis tail_label : forall c, head tail = Some c -> isLabelChar c = true.

Lemma sec_hit ws :
  Forall (fun c => isSpace c = true) ws ->
  k (length ws + 2)%nat caps = Some x ->
  rmatch SecStartRegEx (ws ++ js "{#" ++ tail) 0 caps k = Some x.
Proof.
  intros Hws Hk. unfold SecStartRegEx, Star, lit. cbn [rmatch Nat.eqb].
  rewrite drop_0, run_app by done.
  rewrite (run_stop isSpace (js "{#" ++ tail)) by (by intros c [= <-]).
  apply backoff_first; [lia|]. simpl.
  rewrite Nat.add_0_r, drop_app_length.
  change (startsWith (js "{#" ++ tail) (js "{#")) with true. by cbn iota.
Qed.

Lemma sec_miss text :
  (forall j, (j <= run isSpace text)%nat -> text !! j <> Some 123) ->
  rmatch SecStartRegEx text 0 caps k = None.
Proof.
  intros Hno. unfold SecStartRegEx, Star, lit. cbn [rmatch Nat.eqb].
  rewrite drop_0. apply backoff_none. intros j Hj.
  destruct (startsWith (drop j text) (js "{#")) eqn:Hsw; [|done].
  apply startsWith_head in Hsw. rewrite head_lookup, lookup_drop, Nat.add_0_r in Hsw.
  destruct (Hno j); [lia|done].
Qed.

Lemma fig_hit fence ws :
  (3 <= length fence)%nat ->
  Forall (fun c => oneOf (js "`:") c = true) fence ->
  Forall (fun c => isSpace c = true) ws ->
  k (length fence + 11 + length ws)%nat caps = Some x ->
  rmatch FigureMdRegEx (fence ++ js "{figure-md}" ++ ws ++ tail) 0 caps k
  = Some x.
Proof.
  intros Hlen Hfence Hws Hk. unfold FigureMdRegEx, Star, lit.
  cbn [rmatch Nat.eqb]. rewrite drop_0, run_app by done.
  rewrite (run_stop (oneOf (js "`:")) (js "{figure-md}" ++ ws ++ tail))
    by (by intros c [= <-]).
  apply backoff_first; [lia|]. cbn beta.
  rewrite Nat.add_0_r. cbn [Nat.add]. rewrite drop_app_length.
  change (startsWith (js "{figure-md}" ++ ws ++ tail) (js "{figure-md}"))
    with true. cbn iota.
  change (length (js "{figure-md}")) with 11%nat.
  replace (drop (length fence + 11)
             (fence ++ js "{figure-md}" ++ ws ++ tail)) with (ws ++ tail).
  2:{ rewrite drop_app_add'; [|done]. done. }
  rewrite run_app by done. rewrite (run_stop isSpace tail).
  2:{ intros c Hc. by apply label_not_space, tail_label. }
  apply backoff_first; [lia|]. by rewrite Nat.add_0_r.
Qed.

Lemma fig_miss text :
  (run (oneOf (js "`:")) text < 3)%nat ->
  rmatch FigureMdRegEx text 0 caps k = None.
Proof.
  intros Hrun. unfold FigureMdRegEx, Star, lit. cbn [rmatch Nat.eqb].
  rewrite drop_0, backoff_unfold.
  by destruct (Nat.ltb_spec (run (oneOf (js "`:")) text) 3); [|lia].
Qed.

Lemma name_hit ws1 ws2 :
  Forall (fun c => isSpace c = true) ws1 ->
  Forall (fun c => isSpace c = true) ws2 ->
  k (length ws1 + 6 + length ws2)%nat caps = Some x ->
  rmatch NameRegEx (ws1 ++ js ":name:" ++ ws2 ++ tail) 0 caps k = Some x.
Proof.
  intros Hws1 Hws2 Hk. unfold NameRegEx, Star, lit.
  cbn [rmatch Nat.eqb]. rewrite drop_0, run_app by done.
  rewrite (run_stop isSpace (js ":name:" ++ ws2 ++ tail))
    by (by intros c [= <-]).
  apply backoff_first; [lia|]. cbn beta.
  rewrite Nat.add_0_r. cbn [Nat.add]. rewrite drop_app_length.
  change (startsWith (js ":name:" ++ ws2 ++ tail) (js ":name:")) with true.
  cbn iota. change (length (js ":name:")) with 6%nat.
  replace (drop (length ws1 + 6) (ws1 ++ js ":name:" ++ ws2 ++ tail))
    with (ws2 ++ tail).
  2:{ rewrite drop_app_add'; [|done]. done. }
  rewrite run_app by done. rewrite (run_stop isSpace tail).
  2:{ intros c Hc. by apply label_not_space, tail_label. }
  apply backoff_first; [lia|]. by rewrite Nat.add_0_r.
Qed.

End DefinitionPrefixes.

Lemma run_head_label tail :
  (1 <= run isLabelChar tail)%nat ->
  forall c, head tail = Some c -> isLabelChar c = true.
Proof.
  destruct tail as [|d tail]; simpl; [lia|].
  intros Hrun c [= <-]. destruct (isLabelChar d); [done|lia].
Qed.

Lemma matchAt_def_forms p tail :
  definitionPrefix p ->
  (1 <= run isLabelChar tail)%nat ->
  matchAt defRegex (p ++ tail) 0
  = Some (labelMatch 0 (length p) (run isLabelChar tail)).
Proof.
  intros Hp Hrun. pose proof (run_head_label tail Hrun) as Htail.
  assert (forall text s,
            drop s text = tail ->
            rmatch LabelRegEx text s [(1%nat, (0%nat, s))]
              (fun j caps => Some (mkMatch 0 j ((2%nat, (s, j)) :: caps)))
            = Some (labelMatch 0 s (run isLabelChar tail))) as Hcont.
  { intros text s Hdrop. rewrite labelled_continue; rewrite Hdrop; done. }
  unfold matchAt, defRegex. cbn [rmatch].
  destruct Hp as [(ws & Hws & ->)|[(fence & ws & Hlen & Hfence & Hws & ->)
                                  |(ws1 & ws2 & Hws1 & Hws2 & ->)]].
  - rewrite <- app_assoc.
    erewrite (sec_hit _ _ tail); [reflexivity|done|].
    rewrite length_app. apply Hcont.
    rewrite app_assoc. rewrite <- (length_app ws (js "{#")).
    apply drop_app_length.
  - rewrite <- !app_assoc.
    rewrite sec_miss.
    2:{ intros j Hj. destruct fence as [|c fence]; [simpl in Hlen; lia|].
        apply Forall_cons in Hfence as [Hc _].
        rewrite (run_stop isSpace) in Hj.
        2:{ intros d [= <-]. destruct (isSpace c) eqn:Hs; [|done].
            apply space_chars in Hs as (_ & _ & Hs). congruence. }
        replace j with 0%nat by lia. simpl. intros [= ->]. done. }
    erewrite (fig_hit _ _ tail); [reflexivity|done..|].
    rewrite !length_app. change (length (js "{figure-md}")) with 11%nat.
    rewrite Nat.add_assoc. apply Hcont.
    rewrite !app_assoc. apply drop_app_length'. by rewrite !length_app.
  - rewrite <- !app_assoc.
    rewrite sec_miss.
    2:{ intros j Hj. rewrite run_app in Hj by done.
        rewrite (run_stop isSpace (js ":name:" ++ ws2 ++ tail)) in Hj
          by (by intros c [= <-]).
        destruct (Nat.lt_ge_cases j (length ws1)) as [Hlt|Hge].
        - rewrite lookup_app_l by done. intros Hj'.
          apply list_elem_of_lookup_2 in Hj'.
          rewrite Forall_forall in Hws1. by apply Hws1 in Hj'.
        - replace j with (length ws1 + 0)%nat by lia.
          by rewrite lookup_app_r, Nat.add_comm, Nat.add_sub by lia. }
    rewrite fig_miss.
    2:{ destruct ws1 as [|c ws1].
        - change (js ":name:") with [58; 110; 97; 109; 101; 58].
          simpl. lia.
        - apply Forall_cons in Hws1 as [Hc _]. cbn [app run].
          apply space_chars in Hc as (_ & _ & ->). lia. }
    erewrite (name_hit _ _ tail); [reflexivity|done..|].
    rewrite !length_app. change (length (js ":name:")) with 6%nat.
    rewrite Nat.add_assoc. apply Hcont.
    rewrite !app_assoc. apply drop_app_length'. by rewrite !length_app.
Qed.

Lemma matchAt_def_iff text m :
  matchAt defRegex text 0 = Some m <->
  exists s sym,
    definitionPrefix (take s text)
    /\ identifierAt text s sym
    /\ m = labelMatch 0 s (length sym).
Proof.
  split; [apply matchAt_def_sound|].
  intros (s & sym & Hp & Hid & ->).
  pose proof Hid as [Hrun Hsym]%identifierAt_run.
  assert (length sym = run isLabelChar (drop s text)) as Hlen.
  { rewrite Hsym at 1. rewrite length_take.
    pose proof (run_le isLabelChar (drop s text)). lia. }
  assert (s <= length text)%nat as Hs.
  { destruct (Nat.le_gt_cases s (length text)); [done|].
    rewrite drop_ge in Hrun by lia. simpl in Hrun. lia. }
  rewrite <- (take_drop s text) at 1.
  rewrite (matchAt_def_forms _ _ Hp Hrun).
  rewrite length_take, Nat.min_l by done. by rewrite Hlen.
Qed.

(** The definition scanner reports the definition of a line, if any. *)
Lemma matchAll_def_iff text m :
  m ∈ matchAll defRegex text <-> matchAt defRegex text 0 = Some m.
Proof.
  split.
  - intros (_ & _ & Hat)%matchAllFrom_matchAt.
    destruct (decide (m_start m = 0%nat)) as [H0|Hne]; [by rewrite H0 in Hat|].
    by rewrite matchAt_def_anchored in Hat.
  - intros Hat.
    destruct (matchAllFrom_complete (S (length text)) defRegex text 0 0 m)
      as (m0 & Hin & [->|Hinside]); [lia|lia|done|done|lia].
Qed.

Lemma scan_defRegex_iff textDoc sym loc :
  (sym, loc) ∈ scan defRegex textDoc <->
  exists row text s,
    lines textDoc !! row = Some text
    /\ definitionPrefix (take s text)
    /\ identifierAt text s sym
    /\ loc = located (uri textDoc) row s sym.
Proof.
  unfold scan. rewrite scanRows_iff. split.
  - intros (row & text & m & Hrow & Hm & Hsym).
    apply matchAll_def_iff, matchAt_def_iff in Hm as (s & sym' & Hp & Hid & ->).
    rewrite (symbolOf_labelMatch _ _ _ _ _ _ Hid) in Hsym.
    injection Hsym as <- <-. by exists row, text, s.
  - intros (row & text & s & Hrow & Hp & Hid & ->).
    exists row, text, (labelMatch 0 s (length sym)).
    split; [done|]. split; [|by apply symbolOf_labelMatch].
    apply matchAll_def_iff, matchAt_def_iff. by exists s, sym.
Qed.

(** A definition is recorded for [sym], with the location of its text, at
    exactly the lines of the document that begin with a definition prefix
    followed by [sym] written as a whole identifier. *)
Theorem definition_sites textDoc sym loc :
  (sym, loc) ∈ scan defRegex textDoc <->
  exists row text s,
    lines textDoc !! row = Some text
    /\ definitionPrefix (take s text)
    /\ identifierAt text s sym
    /\ loc = located (uri textDoc) row s sym.
Proof. apply scan_defRegex_iff. Qed.

(** ** The trigger checks of completion *)

Lemma substring1_negative s (i : Z) : (i <= 0)%Z -> substring1 s i = s.
Proof.
  intros Hi. unfold substring1, substring2, clamp.
  rewrite Z2Nat.nonpos, Nat2Z.id, Nat.min_id by done.
  rewrite Nat.min_0_l, Nat.max_0_l, Nat.sub_0_r, drop_0.
  by apply take_ge.
Qed.

(** The two trigger checks, at a caret inside the line.  After a backtick
    typed within the first eight columns, candidates are offered exactly
    when the line starts with [{numref}`], wherever the caret is.  After an
    open parenthesis, the text compared with the closing bracket is
    [text.substring(character - 1, 1)]: candidates are offered exactly when
    the caret is at column 3 and the second character of the line is the
    bracket, or the caret is at column 0 or 1 and the line starts with the
    bracket. *)
Theorem provideCompletionItems_trigger_checks
    (PM : PathModule) (w : World) (document : TextDocument)
    (position : Position) (context : CompletionContext) (text : jsstring) :
  lines document !! line position = Some text ->
  (character position <= length text)%nat ->
  (triggerCharacter context = Some (js "`") ->
   (character position < 9)%nat ->
   provideCompletionItems w document position context
   = if bool_decide (take 9 text = js "{numref}`")
     then candidates w document
     else Return None)
  /\ (triggerCharacter context = Some (js "(") ->
      provideCompletionItems w document position context
      = if bool_decide
             (((character position <= 1)%nat /\ text !! 0%nat = Some 93)
              \/ (character position = 3%nat /\ text !! 1%nat = Some 93))
        then candidates w document
        else Return None).
Proof.
  intros Hline Hcol. split.
  - intros Htrig Hlt. unfold provideCompletionItems, lineAt.
    rewrite bool_decide_eq_true_2 by done. rewrite Hline.
    cbn [mbind Outcome_bind]. change (length (js "{numref}`")) with 9%nat.
    rewrite substring1_negative by lia.
    pose proof (startsWith_take text (js "{numref}`")) as Hsw.
    change (length (js "{numref}`")) with 9%nat in Hsw.
    destruct (startsWith text (js "{numref}`")); cbn [negb].
    + rewrite bool_decide_eq_true_2; [done|]. by apply Hsw.
    + rewrite bool_decide_eq_false_2; [done|].
      intros Heq. apply Hsw in Heq. congruence.
  - intros Htrig. unfold provideCompletionItems, lineAt.
    rewrite bool_decide_eq_false_2
      by (rewrite Htrig; intros Heq; vm_compute in Heq; discriminate).
    rewrite bool_decide_eq_true_2 by done. rewrite Hline.
    cbn [mbind Outcome_bind]. change (js "]") with [93].
    assert (substring2 text (Z.of_nat (character position) - 1) 1 = [93]
            <-> ((character position <= 1)%nat /\ text !! 0%nat = Some 93)
                \/ (character position = 3%nat /\ text !! 1%nat = Some 93))
      as Hiff.
    { unfold substring2, clamp.
      destruct (character position) as [|[|[|[|col]]]] eqn:Ecol.
      - destruct text as [|c text]; simpl;
          [split; [done|]; intros [[_ ?]|[? _]]; [done|lia]|].
        split; [intros [= ->]; left; split; [lia|done]|].
        intros [[_ [= ->]]|[? _]]; [done|lia].
      - destruct text as [|c text]; simpl in *; [lia|].
        split; [intros [= ->]; left; split; [lia|done]|].
        intros [[_ [= ->]]|[? _]]; [done|lia].
      - destruct text as [|c [|d text]]; simpl in *; [lia|lia|].
        split; [done|]. intros [[? _]|[? _]]; lia.
      - destruct text as [|c [|d [|e text]]]; simpl in *; [lia|lia|lia|].
        split; [intros [= ->]; right; split; [lia|done]|].
        intros [[? _]|[_ [= ->]]]; [lia|done].
      - replace (Z.to_nat (Z.of_nat (S (S (S (S col)))) - 1)) with (S (S (S col)))
          by lia.
        destruct text as [|c [|d [|e [|f text]]]]; simpl in *; [lia|lia|lia|lia|].
        rewrite Nat.min_l by lia. simpl.
        split; [|intros [[? _]|[? _]]; lia].
        destruct col; simpl; [done|by destruct text]. }
    destruct (bool_decide (substring2 _ _ _ = [93])) eqn:Hb; cbn [negb].
    + apply bool_decide_eq_true_1 in Hb.
      rewrite bool_decide_eq_true_2; [done|]. by apply Hiff.
    + apply bool_decide_eq_false_1 in Hb.
      rewrite bool_decide_eq_false_2; [done|]. by rewrite <- Hiff.
Qed.

Lemma provideCompletionItems_trigger_checks_witness :
  provideCompletionItems
    (Examples.project "/p/a" Examples.linked (fun files => files))
    (Examples.opened Examples.linked Examples.fileA)
    (mkPosition 2 3) (mkCompletionContext (Some (js "(")))
  = Return (Some [mkCompletionItem (js "intro") Constant]).
Proof.
  destruct (provideCompletionItems_trigger_checks Posix.posix
              (Examples.project "/p/a" Examples.linked (fun files => files))
              (Examples.opened Examples.linked Examples.fileA)
              (mkPosition 2 3) (mkCompletionContext (Some (js "(")))
              (js "a]("))
    as [_ Hparen]; [reflexivity|vm_compute; lia|].
  rewrite Hparen by reflexivity. vm_compute; reflexivity.
Defined.

(** ** Projects with files that cannot be indexed *)

(** The definition query of a project needs every markdown file: it
    returns exactly when every file below the root can be opened, and an
    error that it raises is the error of opening one of the files. *)
Theorem queryAllDefLocations_needs_every_file
    (PM : PathModule) (w : World) (curDoc : TextDocument)
    (root : jsstring) (files : list jsstring) :
  fairOrder w ->
  getSphinxRoot w (path_dirname (fileName curDoc)) = Some root ->
  root <> [] ->
  findMarkdownFiles w root = Return files ->
  ((exists m, queryAllDefLocations w curDoc = Return m)
   <-> forall f, f ∈ files ->
                 exists textDoc, openTextDocument w f = Return textDoc)
  /\ (forall e, queryAllDefLocations w curDoc = Throw e ->
                exists f, f ∈ files /\ openTextDocument w f = Throw e).
Proof.
  intros fair Hroot Hne Hfiles.
  unfold queryAllDefLocations. rewrite Hroot.
  destruct root as [|c r]; [done|]. simpl noRoot. cbv iota.
  simpl default. rewrite Hfiles. cbn [mbind Outcome_bind].
  split; [split|].
  - intros [m Hm]. apply foldl_defTask_Return in Hm.
    rewrite Forall_forall in Hm. intros f Hf. apply Hm.
    by rewrite (fair files).
  - intros Hopen.
    destruct (foldl_defTask_lookup w (resumeOrder w files)) as (m & Hm & _);
      [|by exists m].
    apply Forall_forall. intros f Hf. apply Hopen. by rewrite <- (fair files).
  - intros e He. apply foldl_defTask_error in He as (f & Hin & Hf).
    exists f. split; [by rewrite <- (fair files)|done].
Qed.

Lemma queryAllDefLocations_needs_every_file_witness :
  exists m,
    queryAllDefLocations
      (Examples.project "/p/a" Examples.linked (fun files => files))
      (Examples.opened Examples.linked Examples.fileA)
    = Return m.
Proof.
  destruct (queryAllDefLocations_needs_every_file Posix.posix
              (Examples.project "/p/a" Examples.linked (fun files => files))
              (Examples.opened Examples.linked Examples.fileA)
              (js "/p/a") [Examples.fileA; Examples.fileB])
    as [[_ Hall] _].
  - intros files. reflexivity.
  - vm_compute; reflexivity.
  - discriminate.
  - vm_compute; reflexivity.
  - apply Hall. intros f [->|Hf]%elem_of_cons;
      [|apply list_elem_of_singleton in Hf as ->];
      eexists; vm_compute; reflexivity.
Defined.

Lemma queryReferenceLocations_plain textDoc :
  (exists refLocs, queryReferenceLocations textDoc = Return refLocs)
  <-> plainReferences textDoc.
Proof.
  unfold plainReferences. split.
  - intros [refLocs Hq] row text s sym Hrow Htrig Hid.
    destruct (JSObject.inherited sym) eqn:Hinh; [|done].
    unfold queryReferenceLocations in Hq.
    rewrite foldl_refStep_inherited in Hq; [done|].
    apply Exists_exists. exists (sym, located (uri textDoc) row s sym).
    split; [|done]. apply scan_refRegex_iff. by exists row, text, s.
  - intros Hplain.
    destruct (foldl_refStep_Return (scan refRegex textDoc)) as (m & Hm & _);
      [|by exists m].
    apply Forall_forall. intros [sym loc] Hin.
    apply scan_refRegex_iff in Hin as (row & text & s & Hrow & Htrig & Hid & _).
    by apply (Hplain row text s).
Qed.

Lemma foldl_refTask_lookup `{PathModule} w order :
  Forall (fun f => exists textDoc refLocs,
            openTextDocument w f = Return textDoc
            /\ queryReferenceLocations textDoc = Return refLocs) order ->
  exists m,
    foldl (refTask w) (Return ∅) order = Return m
    /\ forall X, m !! X = head (omap (referencedIn w X) order).
Proof.
  induction order as [|f order IH] using rev_ind; intros Hok.
  - exists ∅. split; [done|]. intros X. by rewrite lookup_empty.
  - apply Forall_app in Hok as [Horder [(textDoc & refLocs & Hf & Hq) _]%Forall_cons].
    destruct (IH Horder) as (m & Hm & Hhead).
    rewrite foldl_snoc, Hm, (refTask_union w m f textDoc refLocs) by done.
    eexists; split; [done|]. intros X.
    rewrite lookup_union, Hhead, omap_app. simpl.
    assert (referencedIn w X f = refLocs !! X) as ->
      by (unfold referencedIn; by rewrite Hf, Hq).
    destruct (omap (referencedIn w X) order) as [|locs rest]; simpl.
    + destruct (refLocs !! X); by rewrite ?(left_id_L None _).
    + by destruct (refLocs !! X).
Qed.

(** The reference query of a project needs every markdown file: it returns
    exactly when every file below the root can be opened and none of them
    refers to an identifier that names a property inherited from
    [Object.prototype]. *)
Theorem queryAllReferenceLocations_needs_every_file
    (PM : PathModule) (w : World) (curDoc : TextDocument)
    (root : jsstring) (files : list jsstring) :
  fairOrder w ->
  getSphinxRoot w (path_dirname (fileName curDoc)) = Some root ->
  root <> [] ->
  findMarkdownFiles w root = Return files ->
  (exists m, queryAllReferenceLocations w curDoc = Return m)
  <-> forall f, f ∈ files ->
                exists textDoc, openTextDocument w f = Return textDoc
                                /\ plainReferences textDoc.
Proof.
  intros fair Hroot Hne Hfiles.
  unfold queryAllReferenceLocations. rewrite Hroot.
  destruct root as [|c r]; [done|]. simpl noRoot. cbv iota.
  simpl default. rewrite Hfiles. cbn [mbind Outcome_bind].
  split.
  - intros [m Hm]. apply foldl_refTask_Return in Hm.
    rewrite Forall_forall in Hm. intros f Hf.
    destruct (Hm f) as (textDoc & refLocs & Hopen & Hq);
      [by rewrite (fair files)|].
    exists textDoc. split; [done|].
    apply queryReferenceLocations_plain. by exists refLocs.
  - intros Hok.
    destruct (foldl_refTask_lookup w (resumeOrder w files)) as (m & Hm & _);
      [|by exists m].
    apply Forall_forall. intros f Hf.
    destruct (Hok f) as (textDoc & Hopen & Hplain);
      [by rewrite <- (fair files)|].
    apply queryReferenceLocations_plain in Hplain as [refLocs Hq].
    by exists textDoc, refLocs.
Qed.

Lemma queryAllReferenceLocations_needs_every_file_witness :
  exists m,
    queryAllReferenceLocations
      (Examples.project "/p/a" Examples.linked (fun files => files))
      (Examples.opened Examples.linked Examples.fileA)
    = Return m.
Proof.
  destruct (queryAllReferenceLocations_needs_every_file Posix.posix
              (Examples.project "/p/a" Examples.linked (fun files => files))
              (Examples.opened Examples.linked Examples.fileA)
              (js "/p/a") [Examples.fileA; Examples.fileB])
    as [_ Hall].
  - intros files. reflexivity.
  - vm_compute; reflexivity.
  - discriminate.
  - vm_compute; reflexivity.
  - apply Hall. intros f [->|Hf]%elem_of_cons;
      [|apply list_elem_of_singleton in Hf as ->].
    + exists (Examples.opened Examples.linked Examples.fileA).
      split; [vm_compute; reflexivity|].
      apply queryReferenceLocations_plain. eexists. vm_compute; reflexivity.
    + exists (Examples.opened Examples.linked Examples.fileB).
      split; [vm_compute; reflexivity|].
      apply queryReferenceLocations_plain. eexists. vm_compute; reflexivity.
Defined.

(** First write wins: in a project whose files can all be opened and
    scanned, the merged reference map binds an identifier to the locations
    of the first file, in the order in which the tasks resume, that refers
    to it; the references of the files after it are missing. *)
Theorem queryAllReferenceLocations_first_file_wins
    (PM : PathModule) (w : World) (curDoc : TextDocument)
    (root : jsstring) (files : list jsstring) :
  fairOrder w ->
  getSphinxRoot w (path_dirname (fileName curDoc)) = Some root ->
  root <> [] ->
  findMarkdownFiles w root = Return files ->
  Forall (fun f => exists textDoc refLocs,
            openTextDocument w f = Return textDoc
            /\ queryReferenceLocations textDoc = Return refLocs) files ->
  exists m,
    queryAllReferenceLocations w curDoc = Return m
    /\ forall X, m !! X = head (omap (referencedIn w X) (resumeOrder w files)).
Proof.
  intros fair Hroot Hne Hfiles Hok.
  unfold queryAllReferenceLocations. rewrite Hroot.
  destruct root as [|c r]; [done|]. simpl noRoot. cbv iota.
  simpl default. rewrite Hfiles. cbn [mbind Outcome_bind].
  apply foldl_refTask_lookup.
  rewrite Forall_forall in *. intros f Hf. apply Hok.
  by rewrite <- (fair files).
Qed.

Lemma queryAllReferenceLocations_first_file_wins_witness :
  exists m,
    queryAllReferenceLocations
      (Examples.project "/p/a" Examples.linked reverse)
      (Examples.opened Examples.linked Examples.fileA)
    = Return m
    /\ forall X,
         m !! X = head (omap (referencedIn
                                (Examples.project "/p/a" Examples.linked reverse) X)
                             [Examples.fileB; Examples.fileA]).
Proof.
  apply (queryAllReferenceLocations_first_file_wins Posix.posix
           (Examples.project "/p/a" Examples.linked reverse)
           (Examples.opened Examples.linked Examples.fileA)
           (js "/p/a") [Examples.fileA; Examples.fileB]).
  - intros files. apply reverse_Permutation.
  - vm_compute; reflexivity.
  - discriminate.
  - vm_compute; reflexivity.
  - repeat constructor; eexists _, _; split; vm_compute; reflexivity.
Defined.

(** ** Go to definition and find references *)

Lemma elem_of_occurrences X hits loc :
  loc ∈ occurrences X hits <-> (X, loc) ∈ hits.
Proof.
  unfold occurrences. rewrite list_elem_of_fmap. split.
  - intros ([sym loc'] & -> & [Hsym Hin]%list_elem_of_filter).
    simpl in Hsym. by rewrite <- Hsym.
  - intros Hin. exists (X, loc). split; [done|].
    by apply list_elem_of_filter.
Qed.

Lemma foldl_defStepLinked hits :
  own (foldl defStepLinked (mkDictionary ∅ None) hits) = foldl defStep ∅ hits
  /\ prototypeLink (foldl defStepLinked (mkDictionary ∅ None) hits)
     = last (occurrences JSObject.protoKey hits).
Proof.
  induction hits as [|h hits [IHown IHlink]] using rev_ind; [done|].
  rewrite !foldl_snoc, occurrences_snoc.
  unfold defStepLinked at 1 3, defStep at 1, JSObject.assign.
  case_bool_decide as Hp; simpl.
  - split; [done|]. case_decide; [|done]. by rewrite last_snoc.
  - split; [by rewrite IHown|]. case_decide; [done|]. by rewrite app_nil_r.
Qed.

(** A read of the scanner's object gives a location exactly for the
    identifiers that were scanned, and gives the last one scanned. *)
Lemma readLinked_scannedObject `{Editor} textDoc X loc :
  readLinked (scannedObject textDoc) X = Value loc
  <-> last (occurrences X (scan defRegex textDoc)) = Some loc.
Proof.
  unfold readLinked, scannedObject.
  destruct (foldl_defStepLinked (scan defRegex textDoc)) as [-> ->].
  rewrite foldl_defStep_lookup. case_decide as HX.
  - subst X. destruct (last _) as [l|]; [|by destruct (JSObject.inherited _)].
    rewrite bool_decide_eq_true_2 by done. split; congruence.
  - destruct (last (occurrences X _)) as [l|]; [split; congruence|].
    destruct (last _) as [l|].
    + rewrite bool_decide_eq_false_2 by done.
      by destruct (locationProperty X || JSObject.inherited X).
    + by destruct (JSObject.inherited X).
Qed.

Lemma foldl_defTask_origin `{PathModule} w order m X loc :
  foldl (defTask w) (Return ∅) order = Return m ->
  m !! X = Some loc ->
  exists f textDoc,
    f ∈ order
    /\ openTextDocument w f = Return textDoc
    /\ queryCrossRefDefLocations textDoc !! X = Some loc.
Proof.
  intros Hm Hlk. pose proof (foldl_defTask_Return _ _ _ _ Hm) as Hopen.
  destruct (foldl_defTask_lookup w order Hopen) as (m' & Hm' & Hlast).
  rewrite Hm in Hm'. injection Hm' as <-. rewrite Hlast in Hlk.
  apply last_Some_elem_of, list_elem_of_omap in Hlk as (f & Hf & Hdef).
  unfold definedIn in Hdef.
  destruct (openTextDocument w f) as [textDoc|e] eqn:Hopenf; [|done].
  by exists f, textDoc.
Qed.

Lemma foldl_refTask_origin `{PathModule} w order m X locs :
  foldl (refTask w) (Return ∅) order = Return m ->
  m !! X = Some locs ->
  exists f textDoc refLocs,
    f ∈ order
    /\ openTextDocument w f = Return textDoc
    /\ queryReferenceLocations textDoc = Return refLocs
    /\ refLocs !! X = Some locs.
Proof.
  intros Hm Hlk. pose proof (foldl_refTask_Return _ _ _ _ Hm) as Hok.
  destruct (foldl_refTask_lookup w order Hok) as (m' & Hm' & Hhead).
  rewrite Hm in Hm'. injection Hm' as <-. rewrite Hhead in Hlk.
  apply head_Some_elem_of, list_elem_of_omap in Hlk as (f & Hf & Href).
  unfold referencedIn in Href.
  destruct (openTextDocument w f) as [textDoc|e] eqn:Hopenf; [|done].
  destruct (queryReferenceLocations textDoc) as [refLocs|e] eqn:Hq; [|done].
  by exists f, textDoc, refLocs.
Qed.

(** Go to definition is sound: a location that [provideDefinition] returns
    is the place, in a document of the scope of the query, where the word
    under the caret is written as the identifier of a definition. *)
Theorem provideDefinition_sound
    (PM : PathModule) (ED : Editor) (w : World) (document : TextDocument)
    (position : Position) (loc : Location) :
  fairOrder w ->
  provideDefinition w document position = Return (Value loc) ->
  exists wordRange textDoc row text s,
    getWordRangeAtPosition document position LabelRegEx = Some wordRange
    /\ inScope w document textDoc
    /\ lines textDoc !! row = Some text
    /\ definitionPrefix (take s text)
    /\ identifierAt text s (getText document wordRange)
    /\ loc = located (uri textDoc) row s (getText document wordRange).
Proof.
  intros fair. unfold provideDefinition, allDefObject, inScope.
  destruct (getWordRangeAtPosition document position LabelRegEx)
    as [wordRange|]; [|done].
  set (symbol := getText document wordRange).
  assert (forall textDoc,
            last (occurrences symbol (scan defRegex textDoc)) = Some loc ->
            exists row text s,
              lines textDoc !! row = Some text
              /\ definitionPrefix (take s text)
              /\ identifierAt text s symbol
              /\ loc = located (uri textDoc) row s symbol) as Hsite.
  { intros textDoc Hlast.
    by apply last_Some_elem_of, elem_of_occurrences, scan_defRegex_iff in Hlast. }
  destruct (noRoot _) eqn:Hroot; cbn [mbind Outcome_bind].
  - intros [= Hread]. apply readLinked_scannedObject in Hread.
    destruct (Hsite _ Hread) as (row & text & s & Hsym).
    by exists wordRange, document, row, text, s.
  - unfold queryAllDefLocations. rewrite Hroot.
    destruct (findMarkdownFiles w _) as [files|e] eqn:Hfiles; [|done].
    cbn [mbind Outcome_bind].
    destruct (foldl (defTask w) _ _) as [m|e] eqn:Hm; [|done].
    cbn [mbind Outcome_bind]. unfold readLinked. simpl.
    destruct (m !! symbol) as [loc'|] eqn:Hlk;
      [|by destruct (JSObject.inherited symbol)].
    intros [= ->].
    destruct (foldl_defTask_origin _ _ _ _ _ Hm Hlk)
      as (f & textDoc & Hf & Hopen & Hdef).
    unfold queryCrossRefDefLocations in Hdef.
    rewrite foldl_defStep_lookup in Hdef. case_decide; [done|].
    destruct (Hsite _ Hdef) as (row & text & s & Hsym).
    exists wordRange, textDoc, row, text, s. split; [done|].
    split; [|done]. exists files, f. split; [done|].
    split; [by rewrite <- (fair files)|done].
Qed.

Lemma provideDefinition_sound_witness :
  exists wordRange textDoc row text s,
    getWordRangeAtPosition (Editor := Examples.editor)
      (Examples.opened Examples.linked Examples.fileB) (mkPosition 0 10) LabelRegEx
    = Some wordRange
    /\ inScope (Examples.project "/p/a" Examples.linked (fun files => files))
         (Examples.opened Examples.linked Examples.fileB) textDoc
    /\ lines textDoc !! row = Some text
    /\ definitionPrefix (take s text)
    /\ identifierAt text s
         (getText (Editor := Examples.editor)
            (Examples.opened Examples.linked Examples.fileB) wordRange)
    /\ Examples.introDefined
       = located (uri textDoc) row s
           (getText (Editor := Examples.editor)
              (Examples.opened Examples.linked Examples.fileB) wordRange).
Proof.
  apply (provideDefinition_sound Posix.posix Examples.editor
           (Examples.project "/p/a" Examples.linked (fun files => files))
           (Examples.opened Examples.linked Examples.fileB)
           (mkPosition 0 10) Examples.introDefined).
  - intros files. reflexivity.
  - vm_compute; reflexivity.
Defined.

(** Without a root, go to definition does not fail, and it returns a
    location exactly when the document defines the word under the caret:
    the location of its last definition.  This holds for [__proto__] too,
    which is no entry of the scanner's object and is found as its
    prototype. *)
Theorem provideDefinition_without_root
    (PM : PathModule) (ED : Editor) (w : World) (document : TextDocument)
    (position : Position) (wordRange : Range) :
  noRoot (getSphinxRoot w (path_dirname (fileName document))) = true ->
  getWordRangeAtPosition document position LabelRegEx = Some wordRange ->
  exists result,
    provideDefinition w document position = Return result
    /\ forall loc,
         result = Value loc
         <-> last (occurrences (getText document wordRange)
                     (scan defRegex document)) = Some loc.
Proof.
  intros Hroot Hword. unfold provideDefinition, allDefObject.
  rewrite Hword, Hroot. cbn [mbind Outcome_bind].
  eexists. split; [done|]. intros loc. apply readLinked_scannedObject.
Qed.

Lemma provideDefinition_without_root_witness :
  provideDefinition (ED := Examples.editor)
    (Examples.project "/p/a" Examples.linked (fun files => files))
    Examples.docLoose (mkPosition 2 28)
  = Return (Value (mkLocation (js "file:///q/x/L.md")
                     (mkRange (mkPosition 1 2) (mkPosition 1 11)))).
Proof.
  destruct (provideDefinition_without_root Posix.posix Examples.editor
              (Examples.project "/p/a" Examples.linked (fun files => files))
              Examples.docLoose (mkPosition 2 28)
              (mkRange (mkPosition 2 26) (mkPosition 2 35)))
    as (result & -> & Hresult); [vm_compute; reflexivity..|].
  f_equal. apply Hresult. vm_compute; reflexivity.
Defined.

(** In a project whose files can all be opened, go to definition returns
    the location that the last file, in the order in which the tasks
    resume, gives the word under the caret; for a word that no file defines
    it returns a value that is no location when the word names a property
    inherited from [Object.prototype], and [undefined] otherwise. *)
Theorem provideDefinition_in_project
    (PM : PathModule) (ED : Editor) (w : World) (document : TextDocument)
    (position : Position) (root : jsstring) (files : list jsstring)
    (wordRange : Range) :
  fairOrder w ->
  getSphinxRoot w (path_dirname (fileName document)) = Some root ->
  root <> [] ->
  findMarkdownFiles w root = Return files ->
  Forall (fun f => exists textDoc, openTextDocument w f = Return textDoc) files ->
  getWordRangeAtPosition document position LabelRegEx = Some wordRange ->
  provideDefinition w document position
  = Return (match last (omap (definedIn w (getText document wordRange))
                          (resumeOrder w files)) with
            | Some loc => Value loc
            | None => if JSObject.inherited (getText document wordRange)
                      then Foreign else Undefined
            end).
Proof.
  intros fair Hroot Hne Hfiles Hopen Hword.
  unfold provideDefinition, allDefObject, queryAllDefLocations.
  rewrite Hword, Hroot. destruct root as [|c r]; [done|].
  simpl noRoot. cbv iota. simpl default. rewrite Hfiles.
  cbn [mbind Outcome_bind].
  destruct (foldl_defTask_lookup w (resumeOrder w files)) as (m & -> & Hlast).
  { rewrite Forall_forall in *. intros f Hf. apply Hopen.
    by rewrite <- (fair files). }
  cbn [mbind Outcome_bind]. unfold readLinked. simpl. by rewrite Hlast.
Qed.

Lemma provideDefinition_in_project_witness :
  provideDefinition (ED := Examples.editor)
    (Examples.project "/p/a" Examples.linked (fun files => files))
    (Examples.opened Examples.linked Examples.fileB) (mkPosition 0 10)
  = Return (Value Examples.introDefined).
Proof.
  rewrite (provideDefinition_in_project Posix.posix Examples.editor
             (Examples.project "/p/a" Examples.linked (fun files => files))
             (Examples.opened Examples.linked Examples.fileB) (mkPosition 0 10)
             (js "/p/a") [Examples.fileA; Examples.fileB]
             (mkRange (mkPosition 0 8) (mkPosition 0 13))).
  - vm_compute; reflexivity.
  - intros files. reflexivity.
  - vm_compute; reflexivity.
  - discriminate.
  - vm_compute; reflexivity.
  - repeat constructor; eexists; vm_compute; reflexivity.
  - vm_compute; reflexivity.
Defined.

(** Find references reports one document only: a sequence of locations
    that [provideReferences] returns is not empty and consists of exactly
    the places of one document of the scope of the query where the word
    under the caret is written as the identifier of a reference. *)
Theorem provideReferences_one_document
    (PM : PathModule) (ED : Editor) (w : World) (document : TextDocument)
    (position : Position) (locs : list Location) :
  fairOrder w ->
  provideReferences w document position = Return (Value locs) ->
  exists wordRange textDoc,
    getWordRangeAtPosition document position LabelRegEx = Some wordRange
    /\ inScope w document textDoc
    /\ locs <> []
    /\ forall loc,
         loc ∈ locs
         <-> exists row text s,
               lines textDoc !! row = Some text
               /\ afterTrigger text s
               /\ identifierAt text s (getText document wordRange)
               /\ loc = located (uri textDoc) row s (getText document wordRange).
Proof.
  intros fair. unfold provideReferences, inScope.
  destruct (getWordRangeAtPosition document position LabelRegEx)
    as [wordRange|]; [|done].
  set (symbol := getText document wordRange).
  assert (forall textDoc refLocs,
            queryReferenceLocations textDoc = Return refLocs ->
            refLocs !! symbol = Some locs ->
            locs <> []
            /\ forall loc,
                 loc ∈ locs
                 <-> exists row text s,
                       lines textDoc !! row = Some text
                       /\ afterTrigger text s
                       /\ identifierAt text s symbol
                       /\ loc = located (uri textDoc) row s symbol) as Hsites.
  { intros textDoc refLocs Hq Hlk.
    pose proof (queryReferenceLocations_Return _ _ Hq symbol) as Hidx.
    rewrite Hlk in Hidx.
    assert (locs = occurrences symbol (scan refRegex textDoc)) as Hlocs
      by (destruct (occurrences _ _); congruence).
    split; [intros ->; by rewrite <- Hlocs in Hidx|].
    intros loc. by rewrite Hlocs, elem_of_occurrences, scan_refRegex_iff. }
  unfold queryAllReferenceLocations.
  destruct (noRoot _) eqn:Hroot.
  - destruct (queryReferenceLocations document) as [refLocs|e] eqn:Hq; [|done].
    cbn [mbind Outcome_bind]. unfold readProperty.
    destruct (refLocs !! symbol) as [locs'|] eqn:Hlk;
      [|by destruct (JSObject.inherited symbol)].
    intros [= ->]. exists wordRange, document. split; [done|].
    split; [done|]. by apply (Hsites document refLocs).
  - destruct (findMarkdownFiles w _) as [files|e] eqn:Hfiles; [|done].
    cbn [mbind Outcome_bind].
    destruct (foldl (refTask w) _ _) as [m|e] eqn:Hm; [|done].
    cbn [mbind Outcome_bind]. unfold readProperty.
    destruct (m !! symbol) as [locs'|] eqn:Hlk;
      [|by destruct (JSObject.inherited symbol)].
    intros [= ->].
    destruct (foldl_refTask_origin _ _ _ _ _ Hm Hlk)
      as (f & textDoc & refLocs & Hf & Hopen & Hq & Hown).
    exists wordRange, textDoc. split; [done|]. split.
    + exists files, f. split; [done|].
      split; [by rewrite <- (fair files)|done].
    + by apply (Hsites textDoc refLocs).
Qed.

Lemma provideReferences_one_document_witness :
  exists wordRange textDoc,
    getWordRangeAtPosition (Editor := Examples.editor)
      (Examples.opened Examples.linked Examples.fileB) (mkPosition 0 10) LabelRegEx
    = Some wordRange
    /\ inScope (Examples.project "/p/a" Examples.linked (fun files => files))
         (Examples.opened Examples.linked Examples.fileB) textDoc
    /\ [Examples.introReferenced] <> []
    /\ forall loc,
         loc ∈ [Examples.introReferenced]
         <-> exists row text s,
               lines textDoc !! row = Some text
               /\ afterTrigger text s
               /\ identifierAt text s
                    (getText (Editor := Examples.editor)
                       (Examples.opened Examples.linked Examples.fileB) wordRange)
               /\ loc = located (uri textDoc) row s
                          (getText (Editor := Examples.editor)
                             (Examples.opened Examples.linked Examples.fileB) wordRange).
Proof.
  apply (provideReferences_one_document Posix.posix Examples.editor
           (Examples.project "/p/a" Examples.linked (fun files => files))
           (Examples.opened Examples.linked Examples.fileB)
           (mkPosition 0 10) [Examples.introReferenced]).
  - intros files. reflexivity.
  - vm_compute; reflexivity.
Defined.

(** ** Directories of one project *)

Lemma getSphinxRoot_step `{PathModule} w dirPath :
  getSphinxRoot w dirPath
  = if hasConf w dirPath then Some dirPath
    else if decide (path_dirname dirPath = dirPath) then None
         else getSphinxRoot w (path_dirname dirPath).
Proof.
  unfold hasConf. funelim (getSphinxRoot w dirPath).
  - by rewrite Heq.
  - rewrite Heq0. by rewrite decide_True.
  - rewrite Heq0. by rewrite decide_False.
Qed.

Lemma getSphinxRoot_hasConf `{PathModule} w dirPath root :
  getSphinxRoot w dirPath = Some root -> hasConf w root = true.
Proof.
  funelim (getSphinxRoot w dirPath); [|done|auto].
  by intros [= <-].
Qed.

(** The directories of a project agree on its root: the root resolves to
    itself, and so does every directory on the way from the start directory
    up to the root, that is, every ancestor below which no directory on the
    way has a [conf.py]. *)
Theorem getSphinxRoot_shared (PM : PathModule) (w : World)
    (startDir root : jsstring) :
  getSphinxRoot w startDir = Some root ->
  getSphinxRoot w root = Some root
  /\ forall k,
       (forall j, (j < k)%nat -> hasConf w (ancestor j startDir) = false) ->
       getSphinxRoot w (ancestor k startDir) = Some root.
Proof.
  intros Hroot. split.
  - rewrite getSphinxRoot_step.
    by rewrite (getSphinxRoot_hasConf _ _ _ Hroot).
  - intros k. revert startDir Hroot.
    induction k as [|k IH]; intros startDir Hroot Hbelow; [done|].
    rewrite ancestor_S. apply IH.
    + rewrite getSphinxRoot_step in Hroot.
      pose proof (Hbelow 0%nat ltac:(lia)) as Hnone.
      change (ancestor 0 startDir) with startDir in Hnone.
      rewrite Hnone in Hroot. by case_decide.
    + intros j Hj. rewrite <- ancestor_S. apply Hbelow. lia.
Qed.

Lemma getSphinxRoot_shared_witness :
  getSphinxRoot (Examples.project "/p/a" Examples.linked (fun files => files)) (js "/p/a") = Some (js "/p/a")
  /\ getSphinxRoot (Examples.project "/p/a" Examples.linked (fun files => files)) (js "/p/a/b") = Some (js "/p/a").
Proof.
  destruct (getSphinxRoot_shared Posix.posix
              (Examples.project "/p/a" Examples.linked (fun files => files)) (js "/p/a/b/c") (js "/p/a"))
    as [Hroot Hway]; [vm_compute; reflexivity|].
  split; [exact Hroot|]. apply (Hway 1%nat).
  intros [|j] Hj; [vm_compute; reflexivity|lia].
Defined.

(** ** Markdown files *)

(** A file counts as markdown exactly when its name ends in [.md], in lower
    case; the name [.md] itself counts. *)
Theorem isMarkdownFile_suffix fileName :
  isMarkdownFile fileName = true <-> exists stem, fileName = stem ++ js ".md".
Proof.
  unfold isMarkdownFile, endsWith. rewrite startsWith_take. split.
  - intros Htake. exists (rev (drop (length (rev (js ".md"))) (rev fileName))).
    rewrite <- (rev_involutive fileName) at 1.
    rewrite <- (take_drop (length (rev (js ".md"))) (rev fileName)) at 1.
    by rewrite rev_app_distr, Htake, rev_involutive.
  - intros [stem ->]. rewrite rev_app_distr. by rewrite take_app_length.
Qed.

(** ** The order of the references of a document *)

Lemma matchAllFrom_sorted fuel r text : forall lastIndex,
  StronglySorted (fun m1 m2 => (resumeAt m1 <= m_start m2)%nat)
                 (matchAllFrom fuel r text lastIndex).
Proof.
  induction fuel as [|fuel IH]; intros lastIndex; simpl; [constructor|].
  destruct (exec r text lastIndex) as [m|] eqn:Hexec; [|constructor].
  constructor; [apply IH|].
  apply Forall_forall. intros m' Hin.
  by apply matchAllFrom_matchAt in Hin as [[? _] _].
Qed.

Lemma StronglySorted_omap {A B} (R : relation A) (R' : relation B)
    (f : A -> option B) l :
  StronglySorted R l ->
  (forall x y a b,
     x ∈ l -> y ∈ l -> R x y -> f x = Some a -> f y = Some b -> R' a b) ->
  StronglySorted R' (omap f l).
Proof.
  induction 1 as [|x l Hl IH Hx]; intros Hf; simpl; [constructor|].
  assert (StronglySorted R' (omap f l)) as Hrest.
  { apply IH. intros y z a b Hy Hz. apply Hf; by right. }
  destruct (f x) as [a|] eqn:Hfx; [|done].
  constructor; [done|]. apply Forall_forall. intros b Hb.
  apply list_elem_of_omap in Hb as (y & Hy & Hfy).
  rewrite Forall_forall in Hx.
  eapply (Hf x y); [by left|by right|by apply Hx|done..].
Qed.

Lemma StronglySorted_filter {A} (R : relation A) (P : A -> Prop)
    `{!forall x, Decision (P x)} l :
  StronglySorted R l -> StronglySorted R (filter P l).
Proof.
  induction 1 as [|x l Hl IH Hx]; [constructor|].
  rewrite filter_cons. case_decide; [|done].
  constructor; [done|]. apply Forall_forall.
  intros y [_ Hy]%list_elem_of_filter.
  rewrite Forall_forall in Hx. by apply Hx.
Qed.

(** Where the location of a reference lies within its match. *)
Lemma ref_hit_span docUri row text m hit :
  m ∈ matchAll refRegex text ->
  symbolOf docUri row text m = Some hit ->
  line (start (range hit.2)) = row
  /\ line (end_ (range hit.2)) = row
  /\ (m_start m <= character (start (range hit.2)))%nat
  /\ (character (end_ (range hit.2)) <= resumeAt m)%nat.
Proof.
  intros [_ Hat]%matchAll_ref_iff Hsym.
  set (i := m_start m) in Hat.
  apply matchAt_ref_iff in Hat as (t & sym & Ht & Htake & Hid & Hm).
  assert (m_start m = i /\ m_end m = (i + length t + length sym)%nat)
    as [Hstart Hend] by (by rewrite Hm).
  rewrite Hm, (symbolOf_labelMatch _ _ _ _ _ _ Hid) in Hsym.
  injection Hsym as <-. simpl.
  split; [done|]. split; [done|]. split; [lia|].
  unfold resumeAt. rewrite Hend. destruct (Nat.eqb _ _); lia.
Qed.

Lemma scanRows_ref_sorted docUri rest : forall row0,
  StronglySorted (fun h1 h2 => precedes h1.2 h2.2)
                 (scanRows refRegex docUri row0 rest).
Proof.
  induction rest as [|text rest IH]; intros row0; simpl; [constructor|].
  apply StronglySorted_app. split; [|split; [|apply IH]].
  - intros h1 h2 (m1 & Hm1 & Hh1)%list_elem_of_omap Hh2.
    apply scanRows_iff in Hh2 as (row & text2 & m2 & _ & Hm2 & Hh2).
    destruct (ref_hit_span _ _ _ _ _ Hm1 Hh1) as (_ & Hline1 & _).
    destruct (ref_hit_span _ _ _ _ _ Hm2 Hh2) as (Hline2 & _).
    left. lia.
  - eapply StronglySorted_omap; [apply matchAllFrom_sorted|].
    intros m1 m2 h1 h2 Hm1 Hm2 Hlt Hh1 Hh2.
    destruct (ref_hit_span _ _ _ _ _ Hm1 Hh1) as (_ & Hline1 & _ & Hend1).
    destruct (ref_hit_span _ _ _ _ _ Hm2 Hh2) as (Hline2 & _ & Hstart2 & _).
    simpl in Hlt. right. split; [congruence|lia].
Qed.

(** The references that a document gives an identifier are listed from top
    to bottom and from left to right, and no two of them overlap. *)
Theorem queryReferenceLocations_ordered textDoc m X locs :
  queryReferenceLocations textDoc = Return m ->
  m !! X = Some locs ->
  StronglySorted precedes locs.
Proof.
  intros Hq Hlk.
  pose proof (queryReferenceLocations_Return _ _ Hq X) as Hidx.
  rewrite Hlk in Hidx.
  assert (locs = occurrences X (scan refRegex textDoc)) as ->
    by (destruct (occurrences _ _); congruence).
  unfold occurrences, scan.
  apply (StronglySorted_fmap _ (fun h1 h2 => precedes h1.2 h2.2)); [done|].
  apply StronglySorted_filter, scanRows_ref_sorted.
Qed.

Lemma queryReferenceLocations_ordered_witness :
  exists m locs,
    queryReferenceLocations Examples.docA = Return m
    /\ m !! js "X" = Some locs
    /\ length locs = 2%nat
    /\ StronglySorted precedes locs.
Proof.
  eexists _, _. split; [vm_compute; reflexivity|].
  split; [vm_compute; reflexivity|]. split; [reflexivity|].
  eapply (queryReferenceLocations_ordered Examples.docA _ (js "X"));
    vm_compute; reflexivity.
Defined.

(** ** What completion offers *)

Lemma queryCrossRefDefLocations_defined textDoc X :
  is_Some (queryCrossRefDefLocations textDoc !! X)
  <-> X <> JSObject.protoKey /\ X ∈ (scan defRegex textDoc).*1.
Proof.
  unfold queryCrossRefDefLocations. rewrite foldl_defStep_lookup. case_decide.
  - split; [by intros [? ?]|by intros [? _]].
  - rewrite <- not_eq_None_Some, last_None, occurrences_nil_iff.
    split; [intros Hin; split; [done|by apply dec_stable]|intros [_ ?]; auto].
Qed.

Lemma queryAllDefLocations_defined `{PathModule} w curDoc m X :
  fairOrder w ->
  queryAllDefLocations w curDoc = Return m ->
  is_Some (m !! X)
  <-> X <> JSObject.protoKey
      /\ exists textDoc,
           inScope w curDoc textDoc /\ X ∈ (scan defRegex textDoc).*1.
Proof.
  intros fair. unfold queryAllDefLocations, inScope.
  destruct (noRoot _) eqn:Hroot.
  - intros [= <-]. rewrite queryCrossRefDefLocations_defined. split.
    + intros [? ?]. split; [done|]. by exists curDoc.
    + by intros (? & textDoc & -> & ?).
  - destruct (findMarkdownFiles w _) as [files|e] eqn:Hfiles; [|done].
    cbn [mbind Outcome_bind]. intros Hm.
    pose proof (foldl_defTask_Return _ _ _ _ Hm) as Hopen.
    destruct (foldl_defTask_lookup w _ Hopen) as (m' & Hm' & Hlast).
    rewrite Hm in Hm'. injection Hm' as <-. rewrite Hlast. split.
    + intros [loc Hloc].
      apply last_Some_elem_of, list_elem_of_omap in Hloc as (f & Hf & Hdef).
      unfold definedIn in Hdef.
      destruct (openTextDocument w f) as [textDoc|e] eqn:Hopenf; [|done].
      destruct (proj1 (queryCrossRefDefLocations_defined textDoc X))
        as [HX Hscan]; [by exists loc|].
      split; [done|]. exists textDoc. split; [|done].
      exists files, f. split; [done|]. split; [|done].
      by rewrite <- (fair files).
    + intros (HX & textDoc & (files' & f & [= <-] & Hf & Hopenf) & Hscan).
      destruct (proj2 (queryCrossRefDefLocations_defined textDoc X))
        as [loc Hloc]; [done|].
      rewrite <- not_eq_None_Some, last_None. intros Hnil.
      assert (loc ∈ omap (definedIn w X) (resumeOrder w files)) as Hin.
      { apply list_elem_of_omap. exists f.
        split; [by rewrite (fair files)|].
        unfold definedIn. by rewrite Hopenf. }
      rewrite Hnil in Hin. by apply elem_of_nil in Hin.
Qed.

(** What completion offers: whenever [provideCompletionItems] returns
    candidates, their labels are exactly the identifiers other than
    [__proto__] that some document of the query's scope defines, that is,
    that are written as a whole identifier after a definition prefix at the
    start of one of its lines. *)
Theorem provideCompletionItems_labels
    (PM : PathModule) (w : World) (document : TextDocument)
    (position : Position) (context : CompletionContext)
    (items : list CompletionItem) :
  fairOrder w ->
  provideCompletionItems w document position context = Return (Some items) ->
  forall id,
    id ∈ label <$> items
    <-> id <> JSObject.protoKey
        /\ exists textDoc row text s,
             inScope w document textDoc
             /\ lines textDoc !! row = Some text
             /\ definitionPrefix (take s text)
             /\ identifierAt text s id.
Proof.
  intros fair Hitems%provideCompletionItems_items id.
  unfold candidates in Hitems.
  destruct (queryAllDefLocations w document) as [m|e] eqn:Hm; [|done].
  simpl in Hitems. injection Hitems as <-.
  rewrite <- list_fmap_compose.
  assert ((label ∘ (fun id => mkCompletionItem id Constant)) <$> JSObject.keys m
          = (map_to_list m).*1) as -> by apply list_fmap_id.
  assert (id ∈ (map_to_list m).*1 <-> is_Some (m !! id)) as ->.
  { rewrite list_elem_of_fmap. split.
    - intros ([k v] & -> & Hin). apply elem_of_map_to_list in Hin. by eexists.
    - intros [v Hv]. exists (id, v). split; [done|].
      by apply elem_of_map_to_list. }
  rewrite (queryAllDefLocations_defined w document m id fair Hm).
  split.
  - intros (Hid & textDoc & Hscope & Hscan). split; [done|].
    apply list_elem_of_fmap in Hscan as ([sym loc] & -> & Hin).
    apply scan_defRegex_iff in Hin as (row & text & s & Hrow & Hp & Hsym & _).
    by exists textDoc, row, text, s.
  - intros (Hid & textDoc & row & text & s & Hscope & Hrow & Hp & Hsym).
    split; [done|]. exists textDoc. split; [done|].
    apply list_elem_of_fmap.
    exists (id, located (uri textDoc) row s id). split; [done|].
    apply scan_defRegex_iff. by exists row, text, s.
Qed.

Lemma provideCompletionItems_labels_witness :
  provideCompletionItems
    (Examples.project "/p/a" Examples.linked (fun files => files))
    (Examples.opened Examples.linked Examples.fileA)
    (mkPosition 1 0) (mkCompletionContext None)
  = Return (Some [mkCompletionItem (js "intro") Constant])
  /\ forall id,
       id ∈ label <$> [mkCompletionItem (js "intro") Constant]
       <-> id <> JSObject.protoKey
           /\ exists textDoc row text s,
                inScope
                  (Examples.project "/p/a" Examples.linked (fun files => files))
                  (Examples.opened Examples.linked Examples.fileA) textDoc
                /\ lines textDoc !! row = Some text
                /\ definitionPrefix (take s text)
                /\ identifierAt text s id.
Proof.
  split; [vm_compute; reflexivity|].
  apply (provideCompletionItems_labels Posix.posix
           (Examples.project "/p/a" Examples.linked (fun files => files))
           (Examples.opened Examples.linked Examples.fileA)
           (mkPosition 1 0) (mkCompletionContext None)).
  - intros files. reflexivity.
  - vm_compute; reflexivity.
Defined.
